(** * GoChik/gpio: sysfs GPIO pins

    A shallow embedding of [sysfs.go] (the attribute protocol: export,
    unexport, direction, edge, polarity, value read and write) and of the
    [Pin] type with its constructors and methods, followed by the
    properties of the pin lifecycle.

    Go values are modelled as follows.
    - [uint] is [N]; [int(x)] of a [uint] is written out with its 64-bit
      wrap-around ([int_of_uint]).
    - [time.Duration] and monotonic clock readings are [Z] nanoseconds.
    - [[]byte] and [string] are [string]; a single byte is an [ascii].
    - a Go [error] is [option error], [None] being [nil]; a [*os.File] is
      [option File], [None] being the nil pointer.
    - the operating system is a [World]: a monotonic clock, the set of
      [os.File] objects already closed, the history of the calls the
      program made, and a [Kernel], which answers every system call as a
      function of the clock and of the history.  Quantifying over the
      [World] quantifies over every behaviour of the kernel. *)

From Stdlib Require Import ZArith NArith List String Ascii Bool Lia.
From Stdlib Require Import DecimalString.
From ExtLib Require Import Structures.Monad.
Import ListNotations.
Import MonadNotation.

Local Open Scope string_scope.
Local Open Scope list_scope.
Local Open Scope Z_scope.
Local Open Scope monad_scope.

(** ** Go scalar types and constants of [sysfs.go] *)

Definition uint := N.

Definition direction := uint.
Definition inDirection : direction := 0%N.
Definition outDirection : direction := 1%N.

Definition Edge := uint.
Definition EdgeNone : Edge := 0%N.
Definition EdgeRising : Edge := 1%N.
Definition EdgeFalling : Edge := 2%N.
Definition EdgeBoth : Edge := 3%N.

Definition LogicLevel := uint.
Definition ActiveHigh : LogicLevel := 0%N.
Definition ActiveLow : LogicLevel := 1%N.

(** [time.Duration]: nanoseconds. *)
Definition Duration := Z.
Definition Millisecond : Duration := 1000000.
Definition Second : Duration := 1000 * Millisecond.

Definition timeout : Duration := 1 * Second.

(** [int(x)] for [x : uint] on a 64-bit platform. *)
Definition int_of_uint (x : uint) : Z :=
  let m := Z.of_N x mod 2 ^ 64 in
  if m <? 2 ^ 63 then m else m - 2 ^ 64.

(** [strconv.Itoa]. *)
Definition Itoa (i : Z) : string := NilEmpty.string_of_int (Z.to_int i).

(** [fmt.Sprintf] of a [uint] under the verb [%d]. *)
Definition sprint_uint (x : uint) : string :=
  NilEmpty.string_of_uint (N.to_uint x).

(** ** Files, errors and the operating system *)

Inductive OpenFlag := O_RDONLY | O_WRONLY | O_RDWR.

(** An [os.File] object; [fd] identifies the object. *)
Record File := mkFile { fd : nat; fname : string; fflag : OpenFlag }.

Inductive Errno := EPERM | ENOENT | EIO | EBADF | EACCES | EBUSY | EINVAL.

(** Go [error] values: those the package builds with [fmt.Errorf] and
    [errors.New] (kept as format and arguments), and those of the [os]
    package. *)
Inductive error :=
| Errorf (format : string) (args : list fmtarg)
| errors_New (text : string)
| ErrInvalid
| ErrClosed
| io_EOF
| SyscallErrno (e : Errno)
| PathError (op path : string) (err : error)
with fmtarg :=
| ArgUint (x : uint)
| ArgDuration (d : Duration)
| ArgByte (c : ascii)
| ArgError (e : error).

(** The calls the program makes, in the order it makes them. *)
Inductive Call :=
| CallOpenFile (name : string) (flag : OpenFlag) (res : option File)
| CallWrite (file : option File) (b : string)
| CallSeek (file : option File) (offset whence : Z)
| CallRead (file : option File) (len : nat)
| CallClose (file : option File)
| CallAccess (path : string) (ok : bool)
| CallSleep (d : Duration).

Inductive ReadResult := RByte (c : ascii) | REOF | RErrno (e : Errno).

(** The kernel's answers, given the clock and the calls made so far.
    [None] is success. *)
Record Kernel := mkKernel {
  k_open     : Z -> list Call -> string -> OpenFlag -> option Errno;
  k_write    : Z -> list Call -> File -> string -> option Errno;
  k_seek     : Z -> list Call -> File -> option Errno;
  k_read     : Z -> list Call -> File -> ReadResult;
  k_close    : Z -> list Call -> File -> option Errno;
  k_access_w : Z -> list Call -> string -> bool;
  k_delay    : Z -> list Call -> N
}.

Record World := mkWorld {
  now    : Z;
  kernel : Kernel;
  closed : list nat;
  nfiles : nat;
  trace  : list Call
}.

(** A system call is recorded and takes the time the kernel says. *)
Definition step (c : Call) (extra : Z) (w : World) : World :=
  mkWorld (now w + extra + Z.of_N (k_delay (kernel w) (now w) (trace w)))
          (kernel w) (closed w) (nfiles w) (trace w ++ [c]).

Definition is_closed (file : File) (w : World) : bool :=
  existsb (Nat.eqb (fd file)) (closed w).

Definition mark_closed (file : File) (w : World) : World :=
  mkWorld (now w) (kernel w) (fd file :: closed w) (nfiles w) (trace w).

Definition alloc_file (w : World) : World :=
  mkWorld (now w) (kernel w) (closed w) (S (nfiles w)) (trace w).

(** ** The monad of Go statements *)

Definition IO (A : Type) : Type := World -> A * World.

#[global] Instance Monad_IO : Monad IO := {|
  ret := fun A (a : A) (w : World) => (a, w);
  bind := fun A B (c : IO A) (k : A -> IO B) (w : World) =>
            let (a, w') := c w in k a w'
|}.

Definition errno_error (op : string) (file : File) (r : option Errno)
  : option error :=
  match r with
  | None => None
  | Some e => Some (PathError op (fname file) (SyscallErrno e))
  end.

(** [os.OpenFile(name, flag, perm)]. *)
Definition os_OpenFile (name : string) (flag : OpenFlag)
  : IO (option File * option error) := fun w =>
  match k_open (kernel w) (now w) (trace w) name flag with
  | None =>
      let file := mkFile (nfiles w) name flag in
      ((Some file, None),
       alloc_file (step (CallOpenFile name flag (Some file)) 0 w))
  | Some e =>
      ((None, Some (PathError "open" name (SyscallErrno e))),
       step (CallOpenFile name flag None) 0 w)
  end.

(** The methods of [*os.File] answer [ErrInvalid] on the nil pointer and
    [ErrClosed] on a closed file, without a system call. *)
Definition File_Write (file : option File) (b : string) : IO (option error) :=
  fun w =>
  let w' := step (CallWrite file b) 0 w in
  match file with
  | None => (Some ErrInvalid, w')
  | Some fl =>
      if is_closed fl w then (Some (PathError "write" (fname fl) ErrClosed), w')
      else (errno_error "write" fl (k_write (kernel w) (now w) (trace w) fl b), w')
  end.

Definition File_Seek (file : option File) (offset whence : Z)
  : IO (option error) := fun w =>
  let w' := step (CallSeek file offset whence) 0 w in
  match file with
  | None => (Some ErrInvalid, w')
  | Some fl =>
      if is_closed fl w then (Some (PathError "seek" (fname fl) ErrClosed), w')
      else (errno_error "seek" fl (k_seek (kernel w) (now w) (trace w) fl), w')
  end.

(** [file.Read(buf)] with [len(buf) = 1]: the byte read, or an error. *)
Definition File_Read1 (file : option File) : IO (ascii * option error) :=
  fun w =>
  let w' := step (CallRead file 1) 0 w in
  match file with
  | None => (zero, Some ErrInvalid, w')
  | Some fl =>
      if is_closed fl w
      then (zero, Some (PathError "read" (fname fl) ErrClosed), w')
      else match k_read (kernel w) (now w) (trace w) fl with
           | RByte c => (c, None, w')
           | REOF => (zero, Some io_EOF, w')
           | RErrno e =>
               (zero, Some (PathError "read" (fname fl) (SyscallErrno e)), w')
           end
  end.

Definition File_Close (file : option File) : IO (option error) := fun w =>
  let w' := step (CallClose file) 0 w in
  match file with
  | None => (Some ErrInvalid, w')
  | Some fl =>
      if is_closed fl w then (Some (PathError "close" (fname fl) ErrClosed), w')
      else (errno_error "close" fl (k_close (kernel w) (now w) (trace w) fl),
            mark_closed fl w')
  end.

(** [unix.Access(path, unix.W_OK) == nil]. *)
Definition unix_Access_W_OK (path : string) : IO bool := fun w =>
  let ok := k_access_w (kernel w) (now w) (trace w) path in
  (ok, step (CallAccess path ok) 0 w).

(** [time.Now()], on the monotonic clock. *)
Definition time_Now : IO Z := fun w =>
  let t := now w + Z.of_N (k_delay (kernel w) (now w) (trace w)) in
  (t, mkWorld t (kernel w) (closed w) (nfiles w) (trace w)).

Definition time_Since (start : Z) : IO Duration :=
  t <- time_Now ;; ret (t - start).

(** [time.Sleep(d)] pauses for at least [d]. *)
Definition time_Sleep (d : Duration) : IO unit := fun w =>
  (tt, step (CallSleep d) (Z.max 0 d) w).

(** ** [Pin] *)

Record Pin := mkPin {
  Pin_Number    : uint;
  Pin_direction : direction;
  Pin_f         : option File
}.

Definition set_direction (d : direction) (p : Pin) : Pin :=
  mkPin (Pin_Number p) d (Pin_f p).

Definition set_f (file : option File) (p : Pin) : Pin :=
  mkPin (Pin_Number p) (Pin_direction p) file.

(** ** [sysfs.go] *)

Definition export_path : string := "/sys/class/gpio/export".
Definition unexport_path : string := "/sys/class/gpio/unexport".

Definition gpio_path (n : uint) (attribute : string) : string :=
  ("/sys/class/gpio/gpio" ++ sprint_uint n ++ "/" ++ attribute)%string.

Inductive outcome (A : Type) := Done (a : A) | OutOfFuel.
Arguments Done {A} a.
Arguments OutOfFuel {A}.

Definition export_timeout_error (p : Pin) : error :=
  Errorf "Exporting pin %d took more than %v"
         [ArgUint (Pin_Number p); ArgDuration timeout].

(** The [for] loop of [waitUntilWritable]; [fuel] bounds the number of
    iterations. *)
Fixpoint waitLoop (fuel : nat) (start : Z) (p : Pin)
  : IO (outcome (option error)) :=
  match fuel with
  | O => ret OutOfFuel
  | S fuel' =>
      since <- time_Since start ;;
      if timeout <=? since then ret (Done (Some (export_timeout_error p)))
      else
        ok <- unix_Access_W_OK (gpio_path (Pin_Number p) "direction") ;;
        if ok then ret (Done None)
        else
          time_Sleep (10 * Millisecond) ;;
          waitLoop fuel' start p
  end.

Definition waitUntilWritable_fuel (fuel : nat) (p : Pin)
  : IO (outcome (option error)) :=
  start <- time_Now ;;
  waitLoop fuel start p.

(** One iteration more than the sleeps that fit in [timeout]; the loop
    never needs more ([waitLoop_spec]). *)
Definition poll_fuel : nat := S (Z.to_nat (timeout / (10 * Millisecond))).

(** [waitUntilWritable]; the branch for exhausted fuel is never taken
    ([waitLoop_spec]). *)
Definition waitUntilWritable (p : Pin) : IO (option error) :=
  r <- waitUntilWritable_fuel poll_fuel p ;;
  match r with
  | Done err => ret err
  | OutOfFuel => ret None
  end.

Definition exportGPIO (p : Pin) : IO (option error) :=
  '(export, err) <- os_OpenFile export_path O_WRONLY ;;
  match err with
  | Some _ =>
      ret (Some (Errorf "failed to open gpio export file for writing" []))
  | None =>
      File_Write export (Itoa (int_of_uint (Pin_Number p))) ;;
      r <- waitUntilWritable p ;;
      File_Close export ;;
      ret r
  end.

Definition unexportGPIO (p : Pin) : IO (option error) :=
  '(export, err) <- os_OpenFile unexport_path O_WRONLY ;;
  match err with
  | Some _ =>
      ret (Some (Errorf "failed to open gpio unexport file for writing" []))
  | None =>
      File_Write export (Itoa (int_of_uint (Pin_Number p))) ;;
      File_Close export ;;
      ret None
  end.

Definition setDirection (p : Pin) (d : direction) (initialValue : uint)
  : IO (option error) :=
  '(dir, err) <- os_OpenFile (gpio_path (Pin_Number p) "direction") O_WRONLY ;;
  match err with
  | Some e =>
      ret (Some (Errorf "failed to open gpio %d direction file for writing: %v"
                        [ArgUint (Pin_Number p); ArgError e]))
  | None =>
      err <- (if (d =? inDirection)%N then File_Write dir "in"
              else if (d =? outDirection)%N && (initialValue =? 0)%N
                   then File_Write dir "low"
              else if (d =? outDirection)%N && (initialValue =? 1)%N
                   then File_Write dir "high"
              else ret (Some (Errorf
                     "setDirection called with invalid direction or initialValue, %d, %d"
                     [ArgUint d; ArgUint initialValue]))) ;;
      File_Close dir ;;
      ret err
  end.

Definition setEdgeTrigger (p : Pin) (e : Edge) : IO (option error) :=
  '(edge, err) <- os_OpenFile (gpio_path (Pin_Number p) "edge") O_WRONLY ;;
  match err with
  | Some e' =>
      ret (Some (Errorf "failed to open gpio %d edge file for writing: %v"
                        [ArgUint (Pin_Number p); ArgError e']))
  | None =>
      err <- (if (e =? EdgeNone)%N then File_Write edge "none"
              else if (e =? EdgeRising)%N then File_Write edge "rising"
              else if (e =? EdgeFalling)%N then File_Write edge "falling"
              else if (e =? EdgeBoth)%N then File_Write edge "both"
              else ret (Some (Errorf "setEdgeTrigger called with invalid edge %d"
                                     [ArgUint e]))) ;;
      File_Close edge ;;
      ret err
  end.

Definition setLogicLevel (p : Pin) (l : LogicLevel) : IO (option error) :=
  '(level, err) <- os_OpenFile (gpio_path (Pin_Number p) "active_low") O_WRONLY ;;
  match err with
  | Some e => ret (Some e)
  | None =>
      err <- (if (l =? ActiveHigh)%N then File_Write level "0"
              else if (l =? ActiveLow)%N then File_Write level "1"
              else ret (Some (errors_New "invalid logic level setting"))) ;;
      File_Close level ;;
      ret err
  end.

Definition openPin (p : Pin) (write : bool) : IO (Pin * option error) :=
  let flags := if write then O_RDWR else O_RDONLY in
  '(file, err) <- os_OpenFile (gpio_path (Pin_Number p) "value") flags ;;
  match err with
  | Some _ =>
      ret (p, Some (Errorf "failed to open gpio %d value file for reading"
                           [ArgUint (Pin_Number p)]))
  | None => ret (set_f file p, None)
  end.

Definition readPin (p : Pin) : IO (uint * option error) :=
  let file := Pin_f p in
  File_Seek file 0 0 ;;
  '(c, err) <- File_Read1 file ;;
  match err with
  | Some e => ret (0%N, Some e)
  | None =>
      if Ascii.eqb c "0" then ret (0%N, None)
      else if Ascii.eqb c "1" then ret (1%N, None)
      else ret (0%N, Some (Errorf "read inconsistent value in pinfile, %c"
                                  [ArgByte c]))
  end.

Definition writePin (p : Pin) (v : uint) : IO (option error) :=
  match v with
  | 0%N => File_Write (Pin_f p) "0"
  | 1%N => File_Write (Pin_f p) "1"
  | _ => ret (Some (Errorf "invalid output value %d" [ArgUint v]))
  end.

(** ** The [Pin] constructors and methods *)

Definition NewInput (n : uint) : IO (Pin * option error) :=
  let pin := mkPin n 0%N None in
  err <- exportGPIO pin ;;
  match err with
  | Some e => ret (pin, Some e)
  | None =>
      let pin := set_direction inDirection pin in
      err <- setDirection pin inDirection 0%N ;;
      match err with
      | Some e => ret (pin, Some e)
      | None => openPin pin false
      end
  end.

Definition NewOutput (n : uint) (initHigh : bool) : IO (Pin * option error) :=
  let pin := mkPin n 0%N None in
  err <- exportGPIO pin ;;
  match err with
  | Some e => ret (pin, Some e)
  | None =>
      let initVal := if initHigh then 1%N else 0%N in
      let pin := set_direction outDirection pin in
      err <- setDirection pin outDirection initVal ;;
      match err with
      | Some e => ret (pin, Some e)
      | None => openPin pin true
      end
  end.

(** [func (p Pin) Close()]: the receiver is a copy of the caller's [Pin].
    [Close_body] runs the statements and yields the receiver as it stands
    when the method returns; [Close] is the call as the caller sees it,
    where the copy is dropped. *)
Definition Close_body (p : Pin) : IO Pin :=
  match Pin_f p with
  | Some _ =>
      File_Close (Pin_f p) ;;
      ret (set_f None p)
  | None => ret p
  end.

Definition Close (p : Pin) : IO unit :=
  Close_body p ;; ret tt.

Definition Cleanup (p : Pin) : IO (option error) :=
  Close p ;;
  unexportGPIO p.

Definition Read (p : Pin) : IO (uint * option error) :=
  readPin p.

Definition SetLogicLevel (p : Pin) (logicLevel : LogicLevel)
  : IO (option error) :=
  setLogicLevel p logicLevel.

Definition High (p : Pin) : IO (option error) :=
  if negb (Pin_direction p =? outDirection)%N
  then ret (Some (errors_New "pin is not configured for output"))
  else writePin p 1%N.

Definition Low (p : Pin) : IO (option error) :=
  if negb (Pin_direction p =? outDirection)%N
  then ret (Some (errors_New "pin is not configured for output"))
  else writePin p 0%N.

(** ** A simulated sysfs

    A kernel that keeps the GPIO control tree in step with the calls made:
    a pin is exported by the first write of its number to [export] (a
    second write is refused with [EBUSY]) until it is written to
    [unexport]; the files of an exported pin exist, and its direction file
    is writable once the clock has reached [settle]; the value file reads
    as the level last written through the direction or value file.
    Without [privileged], [export] and [unexport] cannot be opened.  It is
    the fixture on which the operations are run on concrete inputs. *)

Definition mem_string (s : string) (l : list string) : bool :=
  existsb (String.eqb s) l.

Fixpoint exported_pins (tr : list Call) (acc : list string) : list string :=
  match tr with
  | [] => acc
  | CallWrite (Some file) b :: tr' =>
      exported_pins tr'
        (if String.eqb (fname file) export_path
         then (if mem_string b acc then acc else b :: acc)
         else if String.eqb (fname file) unexport_path
         then filter (fun s => negb (String.eqb s b)) acc
         else acc)
  | _ :: tr' => exported_pins tr' acc
  end.

Definition pin_dir (s : string) : string :=
  ("/sys/class/gpio/gpio" ++ s ++ "/")%string.

(** The direction file next to a value file. *)
Definition sibling_direction (value_name : string) : string :=
  (substring 0 (String.length value_name - 5) value_name ++ "direction")%string.

Fixpoint pin_level (value_name : string) (tr : list Call) (acc : ascii) : ascii :=
  match tr with
  | [] => acc
  | CallWrite (Some file) b :: tr' =>
      pin_level value_name tr'
        (if String.eqb (fname file) value_name
         then (if String.eqb b "1" then "1"%char
               else if String.eqb b "0" then "0"%char else acc)
         else if String.eqb (fname file) (sibling_direction value_name)
         then (if String.eqb b "high" then "1"%char
               else if String.eqb b "low" then "0"%char else acc)
         else acc)
  | _ :: tr' => pin_level value_name tr' acc
  end.

Definition sysfs (settle : Z) (privileged : bool) : Kernel := {|
  k_open := fun _ tr name _ =>
    if String.eqb name export_path || String.eqb name unexport_path
    then (if privileged then None else Some EACCES)
    else if existsb (fun s => String.prefix (pin_dir s) name) (exported_pins tr [])
    then None else Some ENOENT;
  k_write := fun _ tr file b =>
    if String.eqb (fname file) export_path && mem_string b (exported_pins tr [])
    then Some EBUSY else None;
  k_seek := fun _ _ _ => None;
  k_read := fun _ tr file => RByte (pin_level (fname file) tr "0"%char);
  k_close := fun _ _ _ => None;
  k_access_w := fun t tr path =>
    (settle <=? t) &&
    existsb (fun s => String.eqb path (pin_dir s ++ "direction")%string)
            (exported_pins tr []);
  k_delay := fun _ _ => 1000%N
|}.

(** A value file that holds a byte other than a digit. *)
Definition garbled (k : Kernel) (c : ascii) : Kernel := {|
  k_open := k_open k; k_write := k_write k; k_seek := k_seek k;
  k_read := fun _ _ _ => RByte c;
  k_close := k_close k; k_access_w := k_access_w k; k_delay := k_delay k
|}.

Definition boot (k : Kernel) : World := mkWorld 0 k [] 0 [].

(** ** Vocabulary of the properties *)

Definition direction_path (p : Pin) : string :=
  gpio_path (Pin_Number p) "direction".

(** [k] unsuccessful probes, each followed by the 10 ms sleep. *)
Fixpoint polls (path : string) (k : nat) : list Call :=
  match k with
  | O => []
  | S k' => CallAccess path false :: CallSleep (10 * Millisecond) :: polls path k'
  end.

(** The errors of the package, under the names the specification gives
    them. *)
Definition ExportFailure : error :=
  Errorf "failed to open gpio export file for writing" [].

Definition UnexportFailure : error :=
  Errorf "failed to open gpio unexport file for writing" [].

Definition InvalidConfiguration (d : direction) (initialValue : uint) : error :=
  Errorf "setDirection called with invalid direction or initialValue, %d, %d"
         [ArgUint d; ArgUint initialValue].

Definition UnexpectedValueEncoding (c : ascii) : error :=
  Errorf "read inconsistent value in pinfile, %c" [ArgByte c].

Definition WrongDirection : error :=
  errors_New "pin is not configured for output".

(** The token of the direction file, as the specification words it: [in]
    for Input, [low] or [high] for Output with initial level 0 or 1, and
    none for any other combination. *)
Definition spec_direction_token (d : direction) (initialValue : uint)
  : option string :=
  match d, initialValue with
  | 0%N, _ => Some "in"
  | 1%N, 0%N => Some "low"
  | 1%N, 1%N => Some "high"
  | _, _ => None
  end.

(** The kernel's answer to the write that [exportGPIO] issues in [w]:
    [true] when the export file opens and the kernel refuses the decimal
    pin number written to it. *)
Definition export_write_refused (p : Pin) (w : World) : bool :=
  let '(res, w1) := os_OpenFile export_path O_WRONLY w in
  match fst res with
  | Some file =>
      match k_write (kernel w1) (now w1) (trace w1) file
                    (Itoa (int_of_uint (Pin_Number p))) with
      | Some _ => true
      | None => false
      end
  | None => false
  end.

(** What [readPin] makes of the outcome of the one-byte read. *)
Definition decode (fl : File) (byte : ReadResult) : uint * option error :=
  match byte with
  | RByte c =>
      if Ascii.eqb c "0" then (0%N, None)
      else if Ascii.eqb c "1" then (1%N, None)
      else (0%N, Some (UnexpectedValueEncoding c))
  | REOF => (0%N, Some io_EOF)
  | RErrno e => (0%N, Some (PathError "read" (fname fl) (SyscallErrno e)))
  end.

(** [p.Close(); p.Close()]. *)
Definition close_twice (p : Pin) : IO unit :=
  Close p ;; Close p.

(** [p.Close(); return p.f]: the handle the caller holds after [Close]. *)
Definition handle_after_Close (p : Pin) : IO (option File) :=
  Close p ;; ret (Pin_f p).

(** Concrete pins and worlds. *)
Definition pin17 : Pin := mkPin 17%N 0%N None.

(** A kernel that needs 25 ms to make the direction file writable. *)
Definition settling : World := boot (sysfs (25 * Millisecond) true).

(** Pin 17 exported once. *)
Definition exported17 : World := snd (exportGPIO pin17 settling).

(** A kernel on which the direction file never becomes writable. *)
Definition stuck : World := boot (sysfs (3600 * Second) true).

(** No permission to open [export]. *)
Definition unprivileged : World := boot (sysfs 0 false).

(** Pin 17 opened for output, initially high, and its value file. *)
Definition output17 : Pin * option error * World := NewOutput 17%N true settling.

Definition value17 : File := mkFile 2 (gpio_path 17%N "value") O_RDWR.


(** ** Open files

    The [os.File] objects of a world that are open: allocated and not yet
    closed. *)
Definition open_fds (w : World) : list nat :=
  filter (fun n => negb (existsb (Nat.eqb n) (closed w))) (seq 0 (nfiles w)).

(** Only files that were opened have been closed. *)
Definition wf_world (w : World) : Prop :=
  Forall (fun n => (n < nfiles w)%nat) (closed w).

(** The same file objects, in the same state. *)
Definition same_files (w w' : World) : Prop :=
  nfiles w' = nfiles w /\ closed w' = closed w.

(** [w'] has the open files of [w], and is well formed if [w] is. *)
Definition balanced (w w' : World) : Prop :=
  open_fds w' = open_fds w /\
  (wf_world w -> wf_world w') /\
  (nfiles w <= nfiles w')%nat.

(** The errors a constructor can return for pin [n]. *)
Definition construction_error (n : uint) (err : option error) : Prop :=
  err = None \/
  err = Some ExportFailure \/
  err = Some (export_timeout_error (mkPin n 0%N None)) \/
  (exists e, err = Some (Errorf "failed to open gpio %d direction file for writing: %v"
                                [ArgUint n; ArgError e])) \/
  (exists cause, err = Some (PathError "write" (gpio_path n "direction") cause)) \/
  err = Some (Errorf "failed to open gpio %d value file for reading" [ArgUint n]).

(** ** The poll, step by step

    The worlds that the loop of [waitUntilWritable] goes through: [tick]
    is a reading of the clock, [writable_at] the answer of the kernel to
    a probe made in a world, [failed_poll] one iteration whose probe finds
    the file not writable (clock reading, probe, 10 ms sleep), and
    [after_polls] a number of them in a row. *)
Definition tick (w : World) : World := snd (time_Now w).

Definition writable_at (path : string) (u : World) : bool :=
  k_access_w (kernel u) (now u) (trace u) path.

Definition failed_poll (path : string) (w : World) : World :=
  step (CallSleep (10 * Millisecond)) (Z.max 0 (10 * Millisecond))
       (step (CallAccess path false) 0 (tick w)).

Fixpoint after_polls (path : string) (k : nat) (w : World) : World :=
  match k with
  | O => w
  | S k' => after_polls path k' (failed_poll path w)
  end.

(** The world in which [exportGPIO] starts to wait: the export file is
    open and the pin number has been written to it. *)
Definition export_requested (p : Pin) (w : World) : World :=
  let file := Some (mkFile (nfiles w) export_path O_WRONLY) in
  step (CallWrite file (Itoa (int_of_uint (Pin_Number p)))) 0
       (alloc_file (step (CallOpenFile export_path O_WRONLY file) 0 w)).

(** ** Properties *)

(** *** The bounded poll of [waitUntilWritable] *)

Lemma time_Now_spec (w : World) :
  exists t, now w <= t /\
    time_Now w = (t, mkWorld t (kernel w) (closed w) (nfiles w) (trace w)).
Proof.
  eexists. split; [|reflexivity]. lia.
Qed.

Lemma step_now_ge (c : Call) (extra : Z) (w : World) :
  0 <= extra -> now w + extra <= now (step c extra w).
Proof. intros H. unfold step. cbn. lia. Qed.

(** The loop, started with [j] sleeps of room before [timeout] and more
    than [j] units of fuel. *)
Lemma waitLoop_spec (fuel : nat) :
  forall (start : Z) (p : Pin) (w : World) (j : nat),
    timeout - Z.of_nat j * (10 * Millisecond) <= now w - start ->
    (j < fuel)%nat ->
    exists (k : nat) r w',
      waitLoop fuel start p w = (Done r, w') /\
      (k <= j)%nat /\
      kernel w' = kernel w /\ closed w' = closed w /\ nfiles w' = nfiles w /\
      ((r = None /\
        trace w' = trace w ++ polls (direction_path p) k
                           ++ [CallAccess (direction_path p) true])
       \/
       (r = Some (export_timeout_error p) /\
        trace w' = trace w ++ polls (direction_path p) k /\
        timeout <= now w' - start)) /\
      ((forall t tr, k_access_w (kernel w) t tr (direction_path p) = false) ->
       r = Some (export_timeout_error p)).
Proof.
  induction fuel as [|fuel IH]; intros start p w j Hroom Hfuel; [lia|].
  cbn [waitLoop]. unfold time_Since.
  destruct (time_Now_spec w) as (t & Ht & Enow).
  cbn [bind ret Monad_IO]. rewrite Enow.
  destruct (Z.leb_spec timeout (t - start)) as [Hout|Hin].
  - exists 0%nat, (Some (export_timeout_error p)). eexists.
    split; [reflexivity|]. cbn.
    repeat split; try lia; try reflexivity.
    right. rewrite app_nil_r. repeat split; trivial.
  - unfold unix_Access_W_OK at 1. cbn [now kernel trace].
    fold (direction_path p).
    destruct (k_access_w (kernel w) t (trace w) (direction_path p)) eqn:Eok.
    + exists 0%nat, None. eexists. split; [reflexivity|]. cbn.
      repeat split; try lia.
      * left. split; reflexivity.
      * intros Hnever. rewrite Hnever in Eok. discriminate.
    + unfold time_Sleep at 1.
      set (w1 := mkWorld t (kernel w) (closed w) (nfiles w) (trace w)).
      set (w2 := step (CallAccess (direction_path p) false) 0 w1).
      set (w3 := step (CallSleep (10 * Millisecond)) (Z.max 0 (10 * Millisecond)) w2).
      destruct j as [|j].
      { exfalso. lia. }
      destruct (IH start p w3 j) as (k & r & w' & Erun & Hk & Hker & Hcl & Hnf & Hcases & Hnever).
      * assert (now w1 + 0 <= now w2) by (apply step_now_ge; lia).
        assert (now w2 + Z.max 0 (10 * Millisecond) <= now w3)
          by (apply step_now_ge; lia).
        assert (now w1 = t) by reflexivity.
        rewrite Nat2Z.inj_succ in Hroom. unfold Millisecond in *. lia.
      * lia.
      * exists (S k), r, w'. split; [exact Erun|].
        split; [lia|].
        split; [rewrite Hker; reflexivity|].
        split; [rewrite Hcl; reflexivity|].
        split; [rewrite Hnf; reflexivity|].
        split.
        -- destruct Hcases as [[Hr Htr]|[Hr [Htr Hel]]]; [left|right];
             (split; [exact Hr|]); [|split; [|exact Hel]];
             rewrite Htr; cbn; rewrite <- !app_assoc; reflexivity.
        -- intros Hn. apply Hnever. exact Hn.
Qed.

(** More fuel does not change a result already reached. *)
Lemma waitLoop_fuel_mono (fuel : nat) :
  forall (fuel' : nat) (start : Z) (p : Pin) (w : World) r w',
    (fuel <= fuel')%nat ->
    waitLoop fuel start p w = (Done r, w') ->
    waitLoop fuel' start p w = (Done r, w').
Proof.
  induction fuel as [|fuel IH]; intros fuel' start p w r w' Hle Erun.
  - cbn in Erun. discriminate.
  - destruct fuel' as [|fuel']; [lia|].
    cbn [waitLoop] in *. unfold time_Since in *.
    cbn [bind ret Monad_IO] in *.
    destruct (time_Now w) as [t w1].
    destruct (timeout <=? t - start); [exact Erun|].
    destruct (unix_Access_W_OK (gpio_path (Pin_Number p) "direction") w1)
      as [ok w2].
    destruct ok; [exact Erun|].
    destruct (time_Sleep (10 * Millisecond) w2) as [[] w3].
    apply IH; [lia | exact Erun].
Qed.

(** The worlds of the poll keep the kernel and add the probes and sleeps
    to the calls. *)
Lemma tick_facts (w : World) :
  now w <= now (tick w) /\ kernel (tick w) = kernel w /\
  trace (tick w) = trace w /\
  time_Now w = (now (tick w), tick w).
Proof. unfold tick, time_Now. cbn. repeat split. lia. Qed.

Lemma failed_poll_facts (path : string) (w : World) :
  now w + 10 * Millisecond <= now (failed_poll path w) /\
  kernel (failed_poll path w) = kernel w /\
  trace (failed_poll path w) =
    trace w ++ [CallAccess path false; CallSleep (10 * Millisecond)].
Proof.
  unfold failed_poll, step, tick, time_Now. cbn.
  repeat split; [unfold Millisecond; lia|].
  rewrite <- app_assoc. reflexivity.
Qed.

Lemma after_polls_facts (path : string) (k : nat) :
  forall w,
    kernel (after_polls path k w) = kernel w /\
    trace (after_polls path k w) = trace w ++ polls path k.
Proof.
  induction k as [|k IH]; intros w; cbn [after_polls polls].
  - rewrite app_nil_r. split; reflexivity.
  - destruct (IH (failed_poll path w)) as [K T].
    destruct (failed_poll_facts path w) as (_ & K' & T').
    split; [congruence|]. rewrite T, T', <- app_assoc. reflexivity.
Qed.

(** One iteration of the loop. *)
Lemma waitLoop_step (fuel : nat) (start : Z) (p : Pin) (w : World) :
  waitLoop (S fuel) start p w =
  if timeout <=? now (tick w) - start
  then (Done (Some (export_timeout_error p)), tick w)
  else if writable_at (direction_path p) (tick w)
  then (Done None, step (CallAccess (direction_path p) true) 0 (tick w))
  else waitLoop fuel start p (failed_poll (direction_path p) w).
Proof.
  cbn [waitLoop]. unfold time_Since. cbn [bind ret Monad_IO].
  destruct (tick_facts w) as (_ & _ & _ & ->).
  destruct (timeout <=? now (tick w) - start); [reflexivity|].
  unfold unix_Access_W_OK. fold (direction_path p).
  fold (writable_at (direction_path p) (tick w)).
  destruct (writable_at (direction_path p) (tick w)); reflexivity.
Qed.

(** The loop, run from [w]: it makes [k] probes that find the file not
    writable before the time is up, and ends at the next clock reading,
    either because the time is up, with the timeout error, or with a probe
    that finds the file writable, with [nil]. *)
Lemma waitLoop_run (fuel : nat) :
  forall (start : Z) (p : Pin) (w : World) (j : nat),
    timeout - Z.of_nat j * (10 * Millisecond) <= now w - start ->
    (j < fuel)%nat ->
    exists k : nat,
      (k <= j)%nat /\
      (forall i, (i < k)%nat ->
         let u := tick (after_polls (direction_path p) i w) in
         now u - start < timeout /\ writable_at (direction_path p) u = false) /\
      let u := tick (after_polls (direction_path p) k w) in
      (now u - start < timeout /\
       writable_at (direction_path p) u = true /\
       waitLoop fuel start p w =
       (Done None, step (CallAccess (direction_path p) true) 0 u))
      \/
      (timeout <= now u - start /\
       waitLoop fuel start p w = (Done (Some (export_timeout_error p)), u)).
Proof.
  induction fuel as [|fuel IH]; intros start p w j Hroom Hfuel; [lia|].
  rewrite waitLoop_step.
  destruct (tick_facts w) as (Hclock & _).
  destruct (Z.leb_spec timeout (now (tick w) - start)) as [Hout|Hin].
  - exists 0%nat. split; [lia|]. split; [intros i Hi; lia|].
    right. split; [exact Hout | reflexivity].
  - destruct (writable_at (direction_path p) (tick w)) eqn:Eok.
    + exists 0%nat. split; [lia|]. split; [intros i Hi; lia|].
      left. cbn [after_polls]. repeat split; trivial.
    + destruct (failed_poll_facts (direction_path p) w) as (Hsleep & _ & _).
      destruct j as [|j]; [exfalso; lia|].
      destruct (IH start p (failed_poll (direction_path p) w) j)
        as (k & Hk & Hbefore & Hend); [lia | lia |].
      exists (S k). split; [lia|]. split.
      * intros [|i] Hi; cbn [after_polls].
        -- split; assumption.
        -- apply Hbefore. lia.
      * exact Hend.
Qed.

(** C5, as stated, fails in one point: the timeout error does not name
    the elapsed duration.  On a kernel where the direction file never
    becomes writable, the wait ends 1.000301 s after it began and the
    duration in its error is the bound, 1 s. *)
Lemma waitUntilWritable_error_names_bound :
  let '(r, w') := waitUntilWritable pin17 stuck in
  let elapsed := now w' - now (tick stuck) in
  r = Some (Errorf "Exporting pin %d took more than %v"
                   [ArgUint 17%N; ArgDuration 1000000000]) /\
  elapsed = 1000301000 /\
  r <> Some (Errorf "Exporting pin %d took more than %v"
                    [ArgUint 17%N; ArgDuration elapsed]).
Proof.
  vm_compute. split; [reflexivity|]. split; [reflexivity|]. discriminate.
Qed.

(** C5, amended.  [waitUntilWritable] is a bounded poll.  With at least
    [poll_fuel] units of fuel the loop returns, and returns what
    [waitUntilWritable] does.  Counting from the first clock reading,
    [start], it makes [k <= 100] probes of the direction file that find it
    not writable while less than [timeout] has elapsed, each followed by a
    10 ms sleep, and ends at the next clock reading: if less than
    [timeout] has elapsed and the probe finds the file writable, the result
    is [nil], right after that probe; if [timeout] or more has elapsed, the
    result is the timeout error, which names the pin and the bound of 1 s.
    So success comes with the first probe that finds the file writable, the
    error never comes before 1 s, and it is the result when the file is
    never writable. *)
Theorem waitUntilWritable_bounded_poll (p : Pin) (w : World) (fuel : nat) :
  (poll_fuel <= fuel)%nat ->
  let path := direction_path p in
  let start := now (tick w) in
  exists (k : nat) r w',
    waitUntilWritable p w = (r, w') /\
    waitUntilWritable_fuel fuel p w = (Done r, w') /\
    (k <= 100)%nat /\ now w <= start /\
    (forall i, (i < k)%nat ->
       let u := tick (after_polls path i (tick w)) in
       now u - start < timeout /\ writable_at path u = false) /\
    (let u := tick (after_polls path k (tick w)) in
     (now u - start < timeout /\ writable_at path u = true /\
      r = None /\ w' = step (CallAccess path true) 0 u /\
      trace w' = trace w ++ polls path k ++ [CallAccess path true])
     \/
     (timeout <= now u - start /\
      r = Some (export_timeout_error p) /\ w' = u /\
      trace w' = trace w ++ polls path k /\
      timeout <= now w' - start)) /\
    ((forall t tr, k_access_w (kernel w) t tr path = false) ->
     r = Some (export_timeout_error p)).
Proof.
  intros Hfuel. cbn zeta.
  destruct (tick_facts w) as (Hclock & Hker & Htr & Enow).
  assert (Hroom : timeout - Z.of_nat 100 * (10 * Millisecond)
                  <= now (tick w) - now (tick w)) by (cbn; lia).
  assert (Hpf : poll_fuel = 101%nat) by reflexivity.
  destruct (waitLoop_run poll_fuel (now (tick w)) p (tick w) 100 Hroom)
    as (k & Hk & Hbefore & Hend); [lia|].
  cbn zeta in Hend.
  set (u := tick (after_polls (direction_path p) k (tick w))) in *.
  destruct (after_polls_facts (direction_path p) k (tick w)) as [Kk Tk].
  destruct (tick_facts (after_polls (direction_path p) k (tick w)))
    as (_ & Ku & Tu & _).
  fold u in Ku, Tu.
  assert (Hrun : exists r w',
            waitLoop poll_fuel (now (tick w)) p (tick w) = (Done r, w') /\
            ((now u - now (tick w) < timeout /\
              writable_at (direction_path p) u = true /\
              r = None /\ w' = step (CallAccess (direction_path p) true) 0 u)
             \/
             (timeout <= now u - now (tick w) /\
              r = Some (export_timeout_error p) /\ w' = u))).
  { destruct Hend as [(H1 & H2 & E)|(H1 & E)]; do 2 eexists;
      (split; [exact E|]); [left | right]; repeat split; assumption. }
  destruct Hrun as (r & w' & Erun & Hcases).
  pose proof (waitLoop_fuel_mono poll_fuel fuel _ p _ r w' Hfuel Erun) as Erun'.
  exists k, r, w'.
  split.
  { unfold waitUntilWritable, waitUntilWritable_fuel.
    cbn [bind ret Monad_IO]. rewrite Enow, Erun. reflexivity. }
  split.
  { unfold waitUntilWritable_fuel.
    cbn [bind ret Monad_IO]. rewrite Enow. exact Erun'. }
  split; [exact Hk|]. split; [exact Hclock|]. split; [exact Hbefore|].
  split.
  - destruct Hcases as [(H1 & H2 & Hr & Hw)|(H1 & Hr & Hw)]; [left | right].
    + repeat split; trivial. rewrite Hw. cbn [trace step].
      rewrite Tu, Tk, Htr, <- app_assoc. reflexivity.
    + repeat split; trivial.
      * rewrite Hw, Tu, Tk, Htr. reflexivity.
      * rewrite Hw. exact H1.
  - intros Hnever.
    destruct Hcases as [(_ & H2 & _)|(_ & Hr & _)]; [|exact Hr].
    unfold writable_at in H2. rewrite Ku, Kk, Hker, Hnever in H2.
    discriminate.
Qed.

(** What [waitUntilWritable] leaves behind, for the operations built on
    it. *)
Lemma waitUntilWritable_cases (p : Pin) (w : World) :
  exists (k : nat) r w',
    waitUntilWritable p w = (r, w') /\
    kernel w' = kernel w /\ closed w' = closed w /\ nfiles w' = nfiles w /\
    ((r = None /\
      trace w' = trace w ++ polls (direction_path p) k
                         ++ [CallAccess (direction_path p) true])
     \/
     (r = Some (export_timeout_error p) /\
      trace w' = trace w ++ polls (direction_path p) k)).
Proof.
  destruct (time_Now_spec w) as (start & Hstart & Enow).
  set (w1 := mkWorld start (kernel w) (closed w) (nfiles w) (trace w)) in *.
  assert (Hroom : timeout - Z.of_nat 100 * (10 * Millisecond) <= now w1 - start)
    by (cbn; lia).
  assert (Hpf : poll_fuel = 101%nat) by reflexivity.
  destruct (waitLoop_spec poll_fuel start p w1 100 Hroom)
    as (k & r & w' & Erun & _ & Hker & Hcl & Hnf & Hcases & _); [lia|].
  exists k, r, w'. split.
  { unfold waitUntilWritable, waitUntilWritable_fuel.
    cbn [bind ret Monad_IO]. rewrite Enow. fold w1. rewrite Erun. reflexivity. }
  repeat split; trivial.
  destruct Hcases as [[Hr Htr]|[Hr [Htr _]]]; [left|right]; split; trivial.
Qed.

(** *** Export *)

(** C1, as stated, fails: a second export of pin 17 has its write refused
    by the kernel ([EBUSY]) and still returns [nil]. *)
Lemma exportGPIO_refused_write_succeeds :
  export_write_refused pin17 exported17 = true /\
  fst (exportGPIO pin17 exported17) = None.
Proof. split; vm_compute; reflexivity. Qed.

(** C1, amended.  [exportGPIO] fails with [ExportFailure] when the export
    file cannot be opened for writing, and then does nothing else.  When
    it opens, the decimal pin number is written to it, whatever the kernel
    answers to that write is dropped, and the result is that of the wait on
    the direction file, run in the world where the number has been
    written: [nil] once a probe finds it writable, the timeout error
    otherwise; the export file is closed last, in the world the wait
    leaves. *)
Theorem exportGPIO_outcome (p : Pin) (w : World) :
  match k_open (kernel w) (now w) (trace w) export_path O_WRONLY with
  | Some _ =>
      exportGPIO p w =
      (Some ExportFailure, step (CallOpenFile export_path O_WRONLY None) 0 w)
  | None =>
      let file := Some (mkFile (nfiles w) export_path O_WRONLY) in
      let request :=
        [CallOpenFile export_path O_WRONLY file;
         CallWrite file (Itoa (int_of_uint (Pin_Number p)))] in
      let waited := waitUntilWritable p (export_requested p w) in
      exists (k : nat) r w',
        exportGPIO p w = (r, w') /\
        r = fst waited /\
        w' = snd (File_Close file (snd waited)) /\
        trace (export_requested p w) = trace w ++ request /\
        ((r = None /\
          trace w' = trace w ++ request ++ polls (direction_path p) k
                             ++ [CallAccess (direction_path p) true;
                                 CallClose file])
         \/
         (r = Some (export_timeout_error p) /\
          trace w' = trace w ++ request ++ polls (direction_path p) k
                             ++ [CallClose file]))
  end.
Proof.
  unfold exportGPIO. cbn [bind ret Monad_IO]. unfold os_OpenFile.
  destruct (k_open (kernel w) (now w) (trace w) export_path O_WRONLY) as [e|].
  - reflexivity.
  - cbn zeta.
    set (file := mkFile (nfiles w) export_path O_WRONLY).
    set (w1 := alloc_file (step (CallOpenFile export_path O_WRONLY (Some file)) 0 w)).
    destruct (File_Write (Some file) (Itoa (int_of_uint (Pin_Number p))) w1)
      as [werr w2] eqn:Ew.
    assert (Hw2 : w2 = export_requested p w).
    { unfold File_Write in Ew. destruct (is_closed file w1);
        inversion Ew; reflexivity. }
    subst w2.
    assert (Htr2 : trace (export_requested p w) =
                   trace w ++ [CallOpenFile export_path O_WRONLY (Some file);
                               CallWrite (Some file)
                                 (Itoa (int_of_uint (Pin_Number p)))]).
    { unfold export_requested. cbn [trace alloc_file step].
      rewrite <- app_assoc. reflexivity. }
    destruct (waitUntilWritable_cases p (export_requested p w))
      as (k & r & w3 & Ewait & _ & _ & _ & Hcases).
    rewrite Ewait. cbn [fst snd].
    destruct (File_Close (Some file) w3) as [cerr w4] eqn:Ec.
    assert (Htr4 : trace w4 = trace w3 ++ [CallClose (Some file)]).
    { unfold File_Close in Ec. destruct (is_closed file w3);
        inversion Ec; reflexivity. }
    exists k, r, w4. split; [reflexivity|]. split; [reflexivity|].
    split; [reflexivity|]. split; [exact Htr2|].
    destruct Hcases as [[Hr Htr]|[Hr Htr]]; [left|right]; (split; [exact Hr|]);
      rewrite Htr4, Htr, Htr2; rewrite <- !app_assoc; reflexivity.
Qed.

Lemma waitUntilWritable_bounded_poll_witness :
  (poll_fuel <= 101)%nat /\
  let path := direction_path pin17 in
  let start := now (tick exported17) in
  exists (k : nat) r w',
    waitUntilWritable pin17 exported17 = (r, w') /\
    waitUntilWritable_fuel 101 pin17 exported17 = (Done r, w') /\
    (k <= 100)%nat /\ now exported17 <= start /\
    (forall i, (i < k)%nat ->
       let u := tick (after_polls path i (tick exported17)) in
       now u - start < timeout /\ writable_at path u = false) /\
    (let u := tick (after_polls path k (tick exported17)) in
     (now u - start < timeout /\ writable_at path u = true /\
      r = None /\ w' = step (CallAccess path true) 0 u /\
      trace w' = trace exported17 ++ polls path k ++ [CallAccess path true])
     \/
     (timeout <= now u - start /\
      r = Some (export_timeout_error pin17) /\ w' = u /\
      trace w' = trace exported17 ++ polls path k /\
      timeout <= now w' - start)) /\
    ((forall t tr, k_access_w (kernel exported17) t tr path = false) ->
     r = Some (export_timeout_error pin17)).
Proof.
  assert (H : (poll_fuel <= 101)%nat) by (vm_compute; lia).
  split; [exact H|].
  exact (waitUntilWritable_bounded_poll pin17 exported17 101 H).
Defined.

(** On a file that is writable at the first probe the wait succeeds at
    once. *)
Example waitUntilWritable_writable_at_once :
  let '(r, w') := waitUntilWritable pin17 exported17 in
  r = None /\
  trace w' = trace exported17 ++ [CallAccess (direction_path pin17) true].
Proof. vm_compute. split; reflexivity. Qed.

(** On the settling kernel three probes fail and the fourth succeeds; on the
    stuck one the wait gives up after 100 sleeps, one second after it
    began. *)
Example waitUntilWritable_settles :
  let '(r, w') := exportGPIO pin17 settling in
  r = None /\
  trace w' =
    [CallOpenFile export_path O_WRONLY (Some (mkFile 0 export_path O_WRONLY));
     CallWrite (Some (mkFile 0 export_path O_WRONLY)) "17"]
    ++ polls (direction_path pin17) 3
    ++ [CallAccess (direction_path pin17) true;
        CallClose (Some (mkFile 0 export_path O_WRONLY))].
Proof. vm_compute. split; reflexivity. Qed.

Example waitUntilWritable_gives_up :
  let '(r, w') := waitUntilWritable pin17 stuck in
  r = Some (export_timeout_error pin17) /\
  trace w' = polls (direction_path pin17) 100 /\
  now w' = 1000000000 + 302000.
Proof. vm_compute. repeat split; reflexivity. Qed.

Example exportGPIO_unprivileged :
  fst (exportGPIO pin17 unprivileged) = Some ExportFailure.
Proof. reflexivity. Qed.

(** *** Traces of the file operations *)

Lemma File_Write_trace (file : option File) (b : string) (w : World) :
  trace (snd (File_Write file b w)) = trace w ++ [CallWrite file b].
Proof.
  unfold File_Write. destruct file as [fl|]; [destruct (is_closed fl w)|];
    reflexivity.
Qed.

Lemma File_Close_trace (file : option File) (w : World) :
  trace (snd (File_Close file w)) = trace w ++ [CallClose file].
Proof.
  unfold File_Close. destruct file as [fl|]; [destruct (is_closed fl w)|];
    reflexivity.
Qed.

Lemma File_Close_closes (fl : File) (w : World) :
  is_closed fl (snd (File_Close (Some fl) w)) = true.
Proof.
  unfold File_Close. destruct (is_closed fl w) eqn:E; cbn.
  - exact E.
  - unfold is_closed. cbn. rewrite Nat.eqb_refl. reflexivity.
Qed.

(** *** Close *)

(** C2, on the code: two calls of [Close] on a [Pin] that holds a handle
    both call [Close] on the file.  The receiver of [Close] is a copy, so
    the [nil] it stores in [f] is lost when the first call returns. *)
Theorem Close_twice_closes_twice (n : uint) (d : direction) (fl : File)
        (w : World) :
  trace (snd (close_twice (mkPin n d (Some fl)) w)) =
  trace w ++ [CallClose (Some fl); CallClose (Some fl)].
Proof.
  unfold close_twice, Close, Close_body. cbn [bind ret Monad_IO Pin_f].
  destruct (File_Close (Some fl) w) as [e1 w1] eqn:E1.
  destruct (File_Close (Some fl) w1) as [e2 w2] eqn:E2.
  cbn [snd].
  pose proof (File_Close_trace (Some fl) w) as T1. rewrite E1 in T1.
  pose proof (File_Close_trace (Some fl) w1) as T2. rewrite E2 in T2.
  cbn [snd] in T1, T2. rewrite T2, T1, <- app_assoc. reflexivity.
Qed.

(** C3, on the code: [Close] on a [Pin] that holds a handle closes the
    file and nothing else (no unexport), and the receiver it works on ends
    with a nil handle and the same number and direction; the caller's [Pin]
    is another value, and still holds the handle, now of a closed file. *)
Theorem Close_keeps_caller_handle (n : uint) (d : direction) (fl : File)
        (w : World) :
  let p := mkPin n d (Some fl) in
  exists w',
    Close_body p w = (mkPin n d None, w') /\
    handle_after_Close p w = (Some fl, w') /\
    is_closed fl w' = true /\
    trace w' = trace w ++ [CallClose (Some fl)].
Proof.
  cbn zeta. unfold handle_after_Close, Close, Close_body.
  cbn [bind ret Monad_IO Pin_f Pin_Number Pin_direction set_f].
  pose proof (File_Close_trace (Some fl) w) as T.
  pose proof (File_Close_closes fl w) as C.
  destruct (File_Close (Some fl) w) as [e w'].
  exists w'. cbn [snd] in T, C. repeat split; assumption.
Qed.

Example Close_twice_on_output_pin :
  let '(p, _, w) := NewOutput 17%N true settling in
  skipn (List.length (trace w)) (trace (snd (close_twice p w))) =
  [CallClose (Pin_f p); CallClose (Pin_f p)] /\
  fst (handle_after_Close p w) =
  Some (mkFile 2 (gpio_path 17%N "value") O_RDWR).
Proof. vm_compute. split; reflexivity. Qed.

(** *** Cleanup *)

Lemma Close_trace (p : Pin) (w : World) :
  exists wc,
    Close p w = (tt, wc) /\
    trace wc = trace w ++ match Pin_f p with
                          | Some fl => [CallClose (Some fl)]
                          | None => []
                          end.
Proof.
  unfold Close, Close_body. destruct (Pin_f p) as [fl|].
  - cbn [bind ret Monad_IO].
    pose proof (File_Close_trace (Some fl) w) as T.
    destruct (File_Close (Some fl) w) as [e wc]. exists wc. split; trivial.
  - exists w. cbn. rewrite app_nil_r. split; reflexivity.
Qed.

Lemma unexportGPIO_cases (p : Pin) (w : World) :
  exists r w' opened rest,
    unexportGPIO p w = (r, w') /\
    trace w' = trace w ++ CallOpenFile unexport_path O_WRONLY opened :: rest /\
    (r = None \/ r = Some UnexportFailure).
Proof.
  unfold unexportGPIO. cbn [bind ret Monad_IO]. unfold os_OpenFile.
  destruct (k_open (kernel w) (now w) (trace w) unexport_path O_WRONLY)
    as [e|].
  - exists (Some UnexportFailure). eexists. exists None, [].
    split; [reflexivity|]. split; [reflexivity|]. right. reflexivity.
  - set (file := mkFile (nfiles w) unexport_path O_WRONLY).
    set (w1 := alloc_file (step (CallOpenFile unexport_path O_WRONLY (Some file)) 0 w)).
    pose proof (File_Write_trace (Some file) (Itoa (int_of_uint (Pin_Number p))) w1) as TW.
    destruct (File_Write (Some file) (Itoa (int_of_uint (Pin_Number p))) w1)
      as [ew w2].
    pose proof (File_Close_trace (Some file) w2) as TCl.
    destruct (File_Close (Some file) w2) as [ec w3].
    cbn [snd] in TW, TCl.
    exists None, w3, (Some file).
    exists [CallWrite (Some file) (Itoa (int_of_uint (Pin_Number p)));
            CallClose (Some file)].
    split; [reflexivity|]. split; [|left; reflexivity].
    rewrite TCl, TW. subst w1. cbn [trace alloc_file step].
    rewrite <- !app_assoc. reflexivity.
Qed.

(** C8. [Cleanup] closes, then unexports, and returns what the unexport
    returns: [nil], or [UnexportFailure] when the unexport file does not
    open.  Nothing of the close step reaches the result. *)
Theorem Cleanup_close_then_unexport (p : Pin) (w : World) :
  exists wc r w' opened rest,
    Close p w = (tt, wc) /\
    unexportGPIO p wc = (r, w') /\
    Cleanup p w = (r, w') /\
    trace wc = trace w ++ match Pin_f p with
                          | Some fl => [CallClose (Some fl)]
                          | None => []
                          end /\
    trace w' = trace wc ++ CallOpenFile unexport_path O_WRONLY opened :: rest /\
    (r = None \/ r = Some UnexportFailure).
Proof.
  destruct (Close_trace p w) as (wc & EC & TC).
  destruct (unexportGPIO_cases p wc) as (r & w' & opened & rest & EU & TU & HR).
  exists wc, r, w', opened, rest.
  split; [exact EC|]. split; [exact EU|].
  split; [|split; [exact TC|split; [exact TU|exact HR]]].
  unfold Cleanup. cbn [bind ret Monad_IO]. rewrite EC. exact EU.
Qed.

(** *** High and Low *)

Lemma NewInput_direction (n : uint) (w : World) :
  Pin_direction (fst (fst (NewInput n w))) = inDirection.
Proof.
  unfold NewInput. cbn [bind ret Monad_IO].
  destruct (exportGPIO _ w) as [[e|] w1]; [reflexivity|].
  destruct (setDirection _ inDirection 0%N w1) as [[e|] w2]; [reflexivity|].
  unfold openPin. cbn [bind ret Monad_IO].
  destruct (os_OpenFile _ _ w2) as [[file [e|]] w3]; reflexivity.
Qed.

(** C4. On the [Pin] that [NewInput] returns, [High] and [Low] return the
    wrong-direction error and leave the world as it is (no call, hence no
    write), as they do on any [Pin] whose direction is Input; on a [Pin]
    whose direction is Output, [High] is [writePin]
    with 1, which writes the byte ['1'] to the value file, and [Low] is
    [writePin] with 0, which writes ['0']. *)
Theorem High_Low_direction_gate (n : uint) (w w2 : World)
        (file : option File) :
  (let p := fst (fst (NewInput n w)) in
   High p w2 = (Some WrongDirection, w2) /\
   Low p w2 = (Some WrongDirection, w2)) /\
  (let p := mkPin n inDirection file in
   High p w2 = (Some WrongDirection, w2) /\
   Low p w2 = (Some WrongDirection, w2)) /\
  (let q := mkPin n outDirection file in
   High q w2 = writePin q 1%N w2 /\ High q w2 = File_Write file "1" w2 /\
   Low q w2 = writePin q 0%N w2 /\ Low q w2 = File_Write file "0" w2).
Proof.
  split.
  - cbn zeta. unfold High, Low. rewrite NewInput_direction.
    split; reflexivity.
  - split; cbn zeta; repeat split; reflexivity.
Qed.

Example High_on_input_pin :
  let '(p, err, w) := NewInput 17%N settling in
  err = None /\ High p w = (Some WrongDirection, w).
Proof. vm_compute. split; reflexivity. Qed.

Example High_Low_High_on_output_pin :
  let '(p, _, w) := NewOutput 17%N false settling in
  let w1 := snd (High p w) in
  let w2 := snd (Low p w1) in
  let w3 := snd (High p w2) in
  (fst (Read p w), fst (Read p w1), fst (Read p w2), fst (Read p w3)) =
  ((0%N, None), (1%N, None), (0%N, None), (1%N, None)).
Proof. vm_compute. reflexivity. Qed.

(** *** SetDirection *)

(** C6. When the direction file opens, [setDirection] writes to it the
    one token the specification names for the direction and initial value,
    and nothing else; for a combination without a token it writes nothing
    and returns the invalid-configuration error. *)
Theorem setDirection_token (p : Pin) (d : direction) (initialValue : uint)
        (w : World) :
  k_open (kernel w) (now w) (trace w) (direction_path p) O_WRONLY = None ->
  let file := Some (mkFile (nfiles w) (direction_path p) O_WRONLY) in
  let opened := CallOpenFile (direction_path p) O_WRONLY file in
  exists r w',
    setDirection p d initialValue w = (r, w') /\
    match spec_direction_token d initialValue with
    | Some token =>
        trace w' = trace w ++ [opened; CallWrite file token; CallClose file] /\
        r = fst (File_Write file token (alloc_file (step opened 0 w)))
    | None =>
        trace w' = trace w ++ [opened; CallClose file] /\
        r = Some (InvalidConfiguration d initialValue)
    end.
Proof.
  intros Hopen. cbn zeta.
  unfold setDirection. cbn [bind ret Monad_IO]. unfold os_OpenFile.
  fold (direction_path p). rewrite Hopen.
  set (file := Some (mkFile (nfiles w) (direction_path p) O_WRONLY)).
  set (w1 := alloc_file (step (CallOpenFile (direction_path p) O_WRONLY file) 0 w)).
  assert (Hwrite : forall token,
    exists r w',
      (let (err, w2) := File_Write file token w1 in
       let (_, w3) := File_Close file w2 in (err, w3)) = (r, w') /\
      trace w' = trace w ++ [CallOpenFile (direction_path p) O_WRONLY file;
                             CallWrite file token; CallClose file] /\
      r = fst (File_Write file token w1)).
  { intros token.
    pose proof (File_Write_trace file token w1) as TW.
    destruct (File_Write file token w1) as [err w2].
    pose proof (File_Close_trace file w2) as TC.
    destruct (File_Close file w2) as [ec w3].
    cbn [snd fst] in *. exists err, w3.
    split; [reflexivity|]. split; [|reflexivity].
    rewrite TC, TW. subst w1. cbn [trace alloc_file step].
    rewrite <- !app_assoc. reflexivity. }
  assert (Hnone :
    exists r w',
      (let (err, w2) := (Some (InvalidConfiguration d initialValue), w1) in
       let (_, w3) := File_Close file w2 in (err, w3)) = (r, w') /\
      trace w' = trace w ++ [CallOpenFile (direction_path p) O_WRONLY file;
                             CallClose file] /\
      r = Some (InvalidConfiguration d initialValue)).
  { pose proof (File_Close_trace file w1) as TC.
    destruct (File_Close file w1) as [ec w3].
    cbn [snd] in TC. do 2 eexists.
    split; [reflexivity|]. split; [|reflexivity].
    rewrite TC. subst w1. cbn [trace alloc_file step].
    rewrite <- !app_assoc. reflexivity. }
  destruct d as [|[dp|dp|]]; cbn -[File_Write File_Close];
    try exact Hnone; try apply Hwrite.
  destruct initialValue as [|[vp|vp|]]; cbn -[File_Write File_Close];
    try exact Hnone; apply Hwrite.
Qed.

Lemma setDirection_token_witness :
  exists r w',
    setDirection pin17 outDirection 1%N exported17 = (r, w') /\
    trace w' = trace exported17
                 ++ [CallOpenFile (direction_path pin17) O_WRONLY
                       (Some (mkFile 1 (direction_path pin17) O_WRONLY));
                     CallWrite
                       (Some (mkFile 1 (direction_path pin17) O_WRONLY)) "high";
                     CallClose
                       (Some (mkFile 1 (direction_path pin17) O_WRONLY))].
Proof.
  assert (H : k_open (kernel exported17) (now exported17) (trace exported17)
                     (direction_path pin17) O_WRONLY = None)
    by (vm_compute; reflexivity).
  destruct (setDirection_token pin17 outDirection 1%N exported17 H)
    as (r & w' & E & T & _).
  exists r, w'. split; [exact E | exact T].
Defined.

Example setDirection_invalid :
  fst (setDirection pin17 outDirection 2%N exported17) =
  Some (InvalidConfiguration outDirection 2%N) /\
  fst (setDirection pin17 2%N 0%N exported17) =
  Some (InvalidConfiguration 2%N 0%N).
Proof. vm_compute. split; reflexivity. Qed.

(** *** Reading the value file *)

Lemma readPin_open (n : uint) (d : direction) (fl : File) (w : World) :
  is_closed fl w = false ->
  let w1 := step (CallSeek (Some fl) 0 0) 0 w in
  readPin (mkPin n d (Some fl)) w =
  (decode fl (k_read (kernel w) (now w1) (trace w1) fl),
   step (CallRead (Some fl) 1) 0 w1).
Proof.
  intros Hopen. cbn zeta.
  unfold readPin. cbn [bind ret Monad_IO Pin_f].
  unfold File_Seek. rewrite Hopen.
  set (w1 := step (CallSeek (Some fl) 0 0) 0 w).
  unfold File_Read1.
  change (is_closed fl w1) with (is_closed fl w). rewrite Hopen.
  change (kernel w1) with (kernel w).
  destruct (k_read (kernel w) (now w1) (trace w1) fl) as [c| |e];
    [|reflexivity|reflexivity].
  cbn [decode]. destruct (Ascii.eqb c "0"); [reflexivity|].
  destruct (Ascii.eqb c "1"); reflexivity.
Qed.

(** C7. On an open value file [readPin] seeks to offset 0, reads one
    byte, and returns 0 for ['0'], 1 for ['1'], the unexpected-encoding
    error for any other byte, and the error of the read when the read
    fails. *)
Theorem readPin_decodes (n : uint) (d : direction) (fl : File) (w : World) :
  is_closed fl w = false ->
  let p := mkPin n d (Some fl) in
  let w1 := step (CallSeek (Some fl) 0 0) 0 w in
  let byte := k_read (kernel w) (now w1) (trace w1) fl in
  exists r w',
    readPin p w = (r, w') /\
    trace w' = trace w ++ [CallSeek (Some fl) 0 0; CallRead (Some fl) 1] /\
    (byte = RByte "0" -> r = (0%N, None)) /\
    (byte = RByte "1" -> r = (1%N, None)) /\
    (forall c, byte = RByte c -> c <> "0"%char -> c <> "1"%char ->
               r = (0%N, Some (UnexpectedValueEncoding c))) /\
    (byte = REOF -> r = (0%N, Some io_EOF)) /\
    (forall e, byte = RErrno e ->
               r = (0%N, Some (PathError "read" (fname fl) (SyscallErrno e)))).
Proof.
  intros Hopen. cbn zeta. rewrite (readPin_open n d fl w Hopen). cbn zeta.
  do 2 eexists. split; [reflexivity|]. split.
  { cbn [trace step]. rewrite <- app_assoc. reflexivity. }
  split; [intros ->; reflexivity|].
  split; [intros ->; reflexivity|].
  split.
  { intros c -> N0 N1. cbn [decode].
    destruct (Ascii.eqb_spec c "0"); [contradiction|].
    destruct (Ascii.eqb_spec c "1"); [contradiction|]. reflexivity. }
  split; [intros ->; reflexivity|].
  intros e ->. reflexivity.
Qed.

Lemma readPin_decodes_witness :
  exists w',
    readPin (mkPin 17%N outDirection (Some value17)) (snd output17) =
    ((1%N, None), w').
Proof.
  assert (H : is_closed value17 (snd output17) = false)
    by (vm_compute; reflexivity).
  destruct (readPin_decodes 17%N outDirection value17 (snd output17) H)
    as (r & w' & E & _ & _ & H1 & _).
  exists w'. rewrite E. f_equal. apply H1. vm_compute. reflexivity.
Defined.

Example readPin_garbled :
  fst (readPin (mkPin 17%N inDirection (Some value17))
               (boot (garbled (sysfs 0 true) "x"))) =
  (0%N, Some (UnexpectedValueEncoding "x")).
Proof. vm_compute. reflexivity. Qed.

(** *** Read *)

(** C9, as stated, fails: nothing keeps [Read] from a [Pin] that
    [NewOutput] built; it reads the value file and returns the level. *)
Lemma Read_on_output_pin_reads :
  let '(p, err, w) := output17 in
  err = None /\ Pin_direction p = outDirection /\
  fst (Read p w) = (1%N, None) /\
  trace (snd (Read p w)) =
  trace w ++ [CallSeek (Pin_f p) 0 0; CallRead (Pin_f p) 1].
Proof. vm_compute. repeat split; reflexivity. Qed.

(** C9, amended.  [Read] is [readPin] on the handle of the [Pin] and
    does not look at the direction: the same call on the same handle gives
    the same result and world whatever the direction field holds. *)
Theorem Read_ignores_direction (p : Pin) (d : direction) (w : World) :
  Read (set_direction d p) w = readPin p w /\
  Read p w = readPin (mkPin (Pin_Number p) inDirection (Pin_f p)) w.
Proof. split; reflexivity. Qed.

(** C10. [Read] on a [Pin] without a handle returns the invalid-handle
    error of the [os] package: the seek and the read on the nil file are
    refused, and the read's error is returned with value 0. *)
Theorem Read_nil_handle (p : Pin) (w : World) :
  Pin_f p = None ->
  Read p w =
  ((0%N, Some ErrInvalid),
   step (CallRead None 1) 0 (step (CallSeek None 0 0) 0 w)).
Proof.
  intros Hnil. unfold Read, readPin. rewrite Hnil. reflexivity.
Qed.

Lemma Read_nil_handle_witness :
  Pin_f pin17 = None /\
  Read pin17 settling =
  ((0%N, Some ErrInvalid),
   step (CallRead None 1) 0 (step (CallSeek None 0 0) 0 settling)).
Proof.
  split; [reflexivity|].
  apply (Read_nil_handle pin17 settling). reflexivity.
Defined.

(** A construction that fails returns a [Pin] without a handle. *)
Lemma NewInput_failed_no_handle (n : uint) (w : World) :
  snd (fst (NewInput n w)) <> None -> Pin_f (fst (fst (NewInput n w))) = None.
Proof.
  unfold NewInput. cbn [bind ret Monad_IO].
  destruct (exportGPIO _ w) as [[e|] w1]; [reflexivity|].
  destruct (setDirection _ inDirection 0%N w1) as [[e|] w2]; [reflexivity|].
  unfold openPin. cbn [bind ret Monad_IO].
  destruct (os_OpenFile _ _ w2) as [[file [e|]] w3]; cbn; congruence.
Qed.

Lemma NewOutput_failed_no_handle (n : uint) (initHigh : bool) (w : World) :
  snd (fst (NewOutput n initHigh w)) <> None ->
  Pin_f (fst (fst (NewOutput n initHigh w))) = None.
Proof.
  unfold NewOutput. cbn [bind ret Monad_IO].
  destruct (exportGPIO _ w) as [[e|] w1]; [reflexivity|].
  destruct (setDirection _ outDirection _ w1) as [[e|] w2]; [reflexivity|].
  unfold openPin. cbn [bind ret Monad_IO].
  destruct (os_OpenFile _ _ w2) as [[file [e|]] w3]; cbn; congruence.
Qed.

(** After [Close] the caller's handle is that of a closed file, on which
    the read is refused as well. *)
Lemma Read_closed_handle (n : uint) (d : direction) (fl : File) (w : World) :
  is_closed fl w = true ->
  fst (Read (mkPin n d (Some fl)) w) =
  (0%N, Some (PathError "read" (fname fl) ErrClosed)).
Proof.
  intros Hc. unfold Read, readPin. cbn [bind ret Monad_IO Pin_f].
  unfold File_Seek. rewrite Hc. unfold File_Read1.
  change (is_closed fl (step (CallSeek (Some fl) 0 0) 0 w))
    with (is_closed fl w).
  rewrite Hc. reflexivity.
Qed.

(** ** The remaining operations *)

(** *** File objects across the primitive calls *)

Lemma same_files_refl (w : World) : same_files w w.
Proof. split; reflexivity. Qed.

Lemma same_files_trans (w1 w2 w3 : World) :
  same_files w1 w2 -> same_files w2 w3 -> same_files w1 w3.
Proof. intros [A B] [C D]. split; congruence. Qed.

Lemma File_Write_files (file : option File) (b : string) (w : World) :
  same_files w (snd (File_Write file b w)).
Proof.
  unfold File_Write. destruct file as [fl|]; [destruct (is_closed fl w)|];
    split; reflexivity.
Qed.

Lemma File_Seek_files (file : option File) (o wh : Z) (w : World) :
  same_files w (snd (File_Seek file o wh w)).
Proof.
  unfold File_Seek. destruct file as [fl|]; [destruct (is_closed fl w)|];
    split; reflexivity.
Qed.

Lemma File_Read1_files (file : option File) (w : World) :
  same_files w (snd (File_Read1 file w)).
Proof.
  unfold File_Read1. destruct file as [fl|];
    [destruct (is_closed fl w); [|destruct (k_read _ _ _ _)]|];
    split; reflexivity.
Qed.

Lemma waitUntilWritable_files (p : Pin) (w : World) :
  same_files w (snd (waitUntilWritable p w)).
Proof.
  destruct (waitUntilWritable_cases p w) as (k & r & w' & E & _ & C & N & _).
  rewrite E. split; assumption.
Qed.

Lemma open_fds_same (w w' : World) : same_files w w' -> open_fds w' = open_fds w.
Proof. intros [A B]. unfold open_fds. rewrite A, B. reflexivity. Qed.

Lemma wf_world_same (w w' : World) : same_files w w' -> wf_world w -> wf_world w'.
Proof. intros [A B]. unfold wf_world. rewrite A, B. trivial. Qed.

(** Closing a file: the file objects are the same, and the file is among
    the closed ones, alone to have joined them. *)
Lemma File_Close_files (fl : File) (w : World) :
  let w' := snd (File_Close (Some fl) w) in
  nfiles w' = nfiles w /\
  forall n, existsb (Nat.eqb n) (closed w') =
            Nat.eqb n (fd fl) || existsb (Nat.eqb n) (closed w).
Proof.
  cbn zeta. unfold File_Close. destruct (is_closed fl w) eqn:E; cbn.
  - split; [reflexivity|]. intros n.
    destruct (Nat.eqb_spec n (fd fl)) as [->|]; [exact E | reflexivity].
  - split; reflexivity.
Qed.

Lemma File_Close_wf (fl : File) (w : World) :
  (fd fl < nfiles w)%nat -> wf_world w -> wf_world (snd (File_Close (Some fl) w)).
Proof.
  intros Hfd Hwf. unfold File_Close. destruct (is_closed fl w); cbn.
  - exact Hwf.
  - constructor; assumption.
Qed.

(** A file opened, used by calls that open and close nothing, and closed
    leaves the open files as they were. *)
Lemma open_close_no_leak (w w2 : World) (name : string) (flag : OpenFlag) :
  let file := mkFile (nfiles w) name flag in
  same_files (alloc_file (step (CallOpenFile name flag (Some file)) 0 w)) w2 ->
  open_fds (snd (File_Close (Some file) w2)) = open_fds w.
Proof.
  cbn zeta. intros [HN HC].
  destruct (File_Close_files (mkFile (nfiles w) name flag) w2) as [HN' HC'].
  cbn zeta in HN', HC'. cbn [fd] in HC'.
  unfold open_fds. rewrite HN', HN. cbn [nfiles alloc_file step].
  rewrite seq_S, filter_app. cbn [filter Nat.add].
  rewrite HC', Nat.eqb_refl. cbn [orb negb]. rewrite app_nil_r.
  apply filter_ext_in. intros n Hin. apply in_seq in Hin.
  rewrite HC', HC. cbn [closed alloc_file step].
  destruct (Nat.eqb_spec n (nfiles w)); [lia | reflexivity].
Qed.

Lemma open_close_wf (w w2 : World) (name : string) (flag : OpenFlag) :
  let file := mkFile (nfiles w) name flag in
  same_files (alloc_file (step (CallOpenFile name flag (Some file)) 0 w)) w2 ->
  wf_world w ->
  let w3 := snd (File_Close (Some file) w2) in
  wf_world w3 /\ nfiles w3 = S (nfiles w).
Proof.
  cbn zeta. intros [HN HC] Hwf.
  destruct (File_Close_files (mkFile (nfiles w) name flag) w2) as [HN' _].
  cbn zeta in HN'. cbn [nfiles alloc_file step] in HN.
  split; [|congruence].
  apply File_Close_wf; [cbn [fd]; lia|].
  unfold wf_world. rewrite HN, HC. cbn [closed alloc_file step].
  eapply Forall_impl; [|exact Hwf]. cbn. intros; lia.
Qed.

Lemma balanced_same (w w' : World) : same_files w w' -> balanced w w'.
Proof.
  intros H. split; [apply open_fds_same; exact H|].
  split; [apply wf_world_same; exact H|]. destruct H as [A _]. lia.
Qed.

Lemma balanced_trans (w1 w2 w3 : World) :
  balanced w1 w2 -> balanced w2 w3 -> balanced w1 w3.
Proof.
  intros (A & B & C) (D & E & F). split; [congruence|]. split; [auto|lia].
Qed.

Lemma open_close_balanced (w w2 : World) (name : string) (flag : OpenFlag) :
  let file := mkFile (nfiles w) name flag in
  same_files (alloc_file (step (CallOpenFile name flag (Some file)) 0 w)) w2 ->
  balanced w (snd (File_Close (Some file) w2)).
Proof.
  cbn zeta. intros H. split; [apply open_close_no_leak; exact H|].
  split.
  - intros Hwf. apply (open_close_wf w w2 name flag H Hwf).
  - pose proof (File_Close_files (mkFile (nfiles w) name flag) w2) as [HN _].
    cbn zeta in HN. destruct H as [H _]. cbn [nfiles alloc_file step] in H. lia.
Qed.

Lemma exportGPIO_balanced (p : Pin) (w : World) :
  balanced w (snd (exportGPIO p w)).
Proof.
  unfold exportGPIO. cbn [bind ret Monad_IO]. unfold os_OpenFile.
  destruct (k_open (kernel w) (now w) (trace w) export_path O_WRONLY) as [e|].
  - apply balanced_same. split; reflexivity.
  - set (file := mkFile (nfiles w) export_path O_WRONLY).
    set (w1 := alloc_file (step (CallOpenFile export_path O_WRONLY (Some file)) 0 w)).
    pose proof (File_Write_files (Some file) (Itoa (int_of_uint (Pin_Number p))) w1) as H1.
    destruct (File_Write (Some file) (Itoa (int_of_uint (Pin_Number p))) w1) as [e1 w2].
    pose proof (waitUntilWritable_files p w2) as H2.
    destruct (waitUntilWritable p w2) as [r w3]. cbn [snd] in H1, H2.
    pose proof (open_close_balanced w w3 export_path O_WRONLY
                  (same_files_trans _ _ _ H1 H2)) as B.
    cbn zeta in B. fold file in B.
    destruct (File_Close (Some file) w3) as [e3 w4]. exact B.
Qed.

Lemma unexportGPIO_balanced (p : Pin) (w : World) :
  balanced w (snd (unexportGPIO p w)).
Proof.
  unfold unexportGPIO. cbn [bind ret Monad_IO]. unfold os_OpenFile.
  destruct (k_open (kernel w) (now w) (trace w) unexport_path O_WRONLY) as [e|].
  - apply balanced_same. split; reflexivity.
  - set (file := mkFile (nfiles w) unexport_path O_WRONLY).
    set (w1 := alloc_file (step (CallOpenFile unexport_path O_WRONLY (Some file)) 0 w)).
    pose proof (File_Write_files (Some file) (Itoa (int_of_uint (Pin_Number p))) w1) as H1.
    destruct (File_Write (Some file) (Itoa (int_of_uint (Pin_Number p))) w1) as [e1 w2].
    cbn [snd] in H1.
    pose proof (open_close_balanced w w2 unexport_path O_WRONLY H1) as B.
    cbn zeta in B. fold file in B.
    destruct (File_Close (Some file) w2) as [e3 w4]. exact B.
Qed.

(** An attribute setter: the file of the attribute is opened, at most one
    token is written, and the file is closed. *)
Lemma setter_balanced (name : string) (w : World) (body : IO (option error))
      (fail : error -> option error) :
  (forall w1, same_files w1 (snd (body w1))) ->
  balanced w
    (snd (match k_open (kernel w) (now w) (trace w) name O_WRONLY with
          | Some e =>
              (fail (PathError "open" name (SyscallErrno e)),
               step (CallOpenFile name O_WRONLY None) 0 w)
          | None =>
              let (err, w2) :=
                body (alloc_file (step (CallOpenFile name O_WRONLY
                        (Some (mkFile (nfiles w) name O_WRONLY))) 0 w)) in
              let (_, w3) :=
                File_Close (Some (mkFile (nfiles w) name O_WRONLY)) w2 in
              (err, w3)
          end)).
Proof.
  intros Hbody.
  destruct (k_open (kernel w) (now w) (trace w) name O_WRONLY) as [e|].
  - apply balanced_same. split; reflexivity.
  - set (file := mkFile (nfiles w) name O_WRONLY).
    set (w1 := alloc_file (step (CallOpenFile name O_WRONLY (Some file)) 0 w)).
    pose proof (Hbody w1) as H1.
    destruct (body w1) as [err w2]. cbn [snd] in H1.
    pose proof (open_close_balanced w w2 name O_WRONLY H1) as B.
    cbn zeta in B. fold file in B.
    destruct (File_Close (Some file) w2) as [e3 w3]. exact B.
Qed.

Lemma setDirection_balanced (p : Pin) (d : direction) (v : uint) (w : World) :
  balanced w (snd (setDirection p d v w)).
Proof.
  unfold setDirection. cbn [bind ret Monad_IO]. unfold os_OpenFile.
  match goal with
  | |- balanced _ (snd (let (a, w') := match ?o with _ => _ end in _)) =>
      destruct o eqn:Eo
  end.
  - apply balanced_same. split; reflexivity.
  - pose proof (setter_balanced (gpio_path (Pin_Number p) "direction") w
      (if (d =? inDirection)%N
       then File_Write (Some (mkFile (nfiles w) (gpio_path (Pin_Number p) "direction") O_WRONLY)) "in"
       else if (d =? outDirection)%N && (v =? 0)%N
       then File_Write (Some (mkFile (nfiles w) (gpio_path (Pin_Number p) "direction") O_WRONLY)) "low"
       else if (d =? outDirection)%N && (v =? 1)%N
       then File_Write (Some (mkFile (nfiles w) (gpio_path (Pin_Number p) "direction") O_WRONLY)) "high"
       else ret (Some (InvalidConfiguration d v)))
      (fun e => None)) as B.
    rewrite Eo in B. apply B. intros w1.
    destruct (d =? inDirection)%N; [apply File_Write_files|].
    destruct ((d =? outDirection)%N && (v =? 0)%N); [apply File_Write_files|].
    destruct ((d =? outDirection)%N && (v =? 1)%N); [apply File_Write_files|].
    apply same_files_refl.
Qed.

Lemma setEdgeTrigger_balanced (p : Pin) (e : Edge) (w : World) :
  balanced w (snd (setEdgeTrigger p e w)).
Proof.
  unfold setEdgeTrigger. cbn [bind ret Monad_IO]. unfold os_OpenFile.
  match goal with
  | |- balanced _ (snd (let (a, w') := match ?o with _ => _ end in _)) =>
      destruct o eqn:Eo
  end.
  - apply balanced_same. split; reflexivity.
  - set (file := Some (mkFile (nfiles w) (gpio_path (Pin_Number p) "edge") O_WRONLY)).
    pose proof (setter_balanced (gpio_path (Pin_Number p) "edge") w
      (if (e =? EdgeNone)%N then File_Write file "none"
       else if (e =? EdgeRising)%N then File_Write file "rising"
       else if (e =? EdgeFalling)%N then File_Write file "falling"
       else if (e =? EdgeBoth)%N then File_Write file "both"
       else ret (Some (Errorf "setEdgeTrigger called with invalid edge %d"
                              [ArgUint e])))
      (fun e => None)) as B.
    rewrite Eo in B. apply B. intros w1.
    destruct (e =? EdgeNone)%N; [apply File_Write_files|].
    destruct (e =? EdgeRising)%N; [apply File_Write_files|].
    destruct (e =? EdgeFalling)%N; [apply File_Write_files|].
    destruct (e =? EdgeBoth)%N; [apply File_Write_files|].
    apply same_files_refl.
Qed.

Lemma setLogicLevel_balanced (p : Pin) (l : LogicLevel) (w : World) :
  balanced w (snd (setLogicLevel p l w)).
Proof.
  unfold setLogicLevel. cbn [bind ret Monad_IO]. unfold os_OpenFile.
  match goal with
  | |- balanced _ (snd (let (a, w') := match ?o with _ => _ end in _)) =>
      destruct o eqn:Eo
  end.
  - apply balanced_same. split; reflexivity.
  - set (file := Some (mkFile (nfiles w) (gpio_path (Pin_Number p) "active_low") O_WRONLY)).
    pose proof (setter_balanced (gpio_path (Pin_Number p) "active_low") w
      (if (l =? ActiveHigh)%N then File_Write file "0"
       else if (l =? ActiveLow)%N then File_Write file "1"
       else ret (Some (errors_New "invalid logic level setting")))
      (fun e => None)) as B.
    rewrite Eo in B. apply B. intros w1.
    destruct (l =? ActiveHigh)%N; [apply File_Write_files|].
    destruct (l =? ActiveLow)%N; [apply File_Write_files|].
    apply same_files_refl.
Qed.

(** X1. The operations of the attribute protocol leave no file open: on
    every path, the failures and the timeout included, the open files after
    [exportGPIO], [unexportGPIO], [setDirection], [setEdgeTrigger] and
    [setLogicLevel] are those before the call. *)
Theorem attribute_protocol_no_leak (p : Pin) (d : direction) (v : uint)
        (e : Edge) (l : LogicLevel) (w : World) :
  open_fds (snd (exportGPIO p w)) = open_fds w /\
  open_fds (snd (unexportGPIO p w)) = open_fds w /\
  open_fds (snd (setDirection p d v w)) = open_fds w /\
  open_fds (snd (setEdgeTrigger p e w)) = open_fds w /\
  open_fds (snd (setLogicLevel p l w)) = open_fds w.
Proof.
  split; [apply exportGPIO_balanced|].
  split; [apply unexportGPIO_balanced|].
  split; [apply setDirection_balanced|].
  split; [apply setEdgeTrigger_balanced|apply setLogicLevel_balanced].
Qed.

(** *** The constructors *)

Lemma openPin_cases (p : Pin) (write : bool) (w : World) :
  let flag := if write then O_RDWR else O_RDONLY in
  let name := gpio_path (Pin_Number p) "value" in
  let file := Some (mkFile (nfiles w) name flag) in
  openPin p write w =
    (p, Some (Errorf "failed to open gpio %d value file for reading"
                     [ArgUint (Pin_Number p)]),
     step (CallOpenFile name flag None) 0 w)
  \/
  openPin p write w =
    (set_f file p, None, alloc_file (step (CallOpenFile name flag file) 0 w)).
Proof.
  cbn zeta. unfold openPin. cbn [bind ret Monad_IO]. unfold os_OpenFile.
  destruct (k_open _ _ _ _ _); [left|right]; reflexivity.
Qed.

(** A constructor either fails, with a [Pin] that holds no handle and no
    file left open, or ends with the open of the value file, in a world
    [w2] whose open files are those of the start. *)
Lemma NewInput_shape (n : uint) (w : World) :
  (exists p e w1,
      NewInput n w = (p, Some e, w1) /\
      Pin_Number p = n /\ Pin_f p = None /\ balanced w w1)
  \/
  (exists w2,
      balanced w w2 /\
      let name := gpio_path n "value" in
      let file := Some (mkFile (nfiles w2) name O_RDONLY) in
      NewInput n w =
      (mkPin n inDirection file, None,
       alloc_file (step (CallOpenFile name O_RDONLY file) 0 w2))).
Proof.
  unfold NewInput. cbn [bind ret Monad_IO].
  pose proof (exportGPIO_balanced (mkPin n 0%N None) w) as B1.
  destruct (exportGPIO (mkPin n 0%N None) w) as [[e|] w1]; cbn [snd] in B1.
  { left. exists (mkPin n 0%N None), e, w1. repeat split; trivial; apply B1. }
  set (pin := set_direction inDirection (mkPin n 0%N None)).
  pose proof (setDirection_balanced pin inDirection 0%N w1) as B2.
  destruct (setDirection pin inDirection 0%N w1) as [[e|] w2]; cbn [snd] in B2.
  { left. exists pin, e, w2. repeat split; trivial;
      apply (balanced_trans _ _ _ B1 B2). }
  destruct (openPin_cases pin false w2) as [E|E]; rewrite E.
  - left. do 3 eexists. split; [reflexivity|]. repeat split; trivial;
      apply (balanced_trans _ _ _ (balanced_trans _ _ _ B1 B2)
                            (balanced_same _ _ (conj eq_refl eq_refl))).
  - right. exists w2. split; [exact (balanced_trans _ _ _ B1 B2)|reflexivity].
Qed.

Lemma NewOutput_shape (n : uint) (initHigh : bool) (w : World) :
  (exists p e w1,
      NewOutput n initHigh w = (p, Some e, w1) /\
      Pin_Number p = n /\ Pin_f p = None /\ balanced w w1)
  \/
  (exists w2,
      balanced w w2 /\
      let name := gpio_path n "value" in
      let file := Some (mkFile (nfiles w2) name O_RDWR) in
      NewOutput n initHigh w =
      (mkPin n outDirection file, None,
       alloc_file (step (CallOpenFile name O_RDWR file) 0 w2))).
Proof.
  unfold NewOutput. cbn [bind ret Monad_IO].
  pose proof (exportGPIO_balanced (mkPin n 0%N None) w) as B1.
  destruct (exportGPIO (mkPin n 0%N None) w) as [[e|] w1]; cbn [snd] in B1.
  { left. exists (mkPin n 0%N None), e, w1. repeat split; trivial; apply B1. }
  set (pin := set_direction outDirection (mkPin n 0%N None)).
  set (initVal := if initHigh then 1%N else 0%N).
  pose proof (setDirection_balanced pin outDirection initVal w1) as B2.
  destruct (setDirection pin outDirection initVal w1) as [[e|] w2];
    cbn [snd] in B2.
  { left. exists pin, e, w2. repeat split; trivial;
      apply (balanced_trans _ _ _ B1 B2). }
  destruct (openPin_cases pin true w2) as [E|E]; rewrite E.
  - left. do 3 eexists. split; [reflexivity|]. repeat split; trivial;
      apply (balanced_trans _ _ _ (balanced_trans _ _ _ B1 B2)
                            (balanced_same _ _ (conj eq_refl eq_refl))).
  - right. exists w2. split; [exact (balanced_trans _ _ _ B1 B2)|reflexivity].
Qed.

(** In a well-formed world a fresh file is open. *)
Lemma open_fds_alloc (w : World) (c : Call) :
  wf_world w ->
  let w' := alloc_file (step c 0 w) in
  open_fds w' = open_fds w ++ [nfiles w] /\ wf_world w' /\
  existsb (Nat.eqb (nfiles w)) (closed w') = false.
Proof.
  intros Hwf. cbn zeta.
  assert (Hfresh : existsb (Nat.eqb (nfiles w)) (closed w) = false).
  { apply not_true_is_false. intros H. apply existsb_exists in H.
    destruct H as (x & Hin & Heq). apply Nat.eqb_eq in Heq. subst x.
    unfold wf_world in Hwf. rewrite Forall_forall in Hwf.
    specialize (Hwf _ Hin). lia. }
  split; [|split].
  - unfold open_fds. cbn [nfiles closed alloc_file step].
    rewrite seq_S, filter_app. cbn [filter Nat.add]. rewrite Hfresh.
    reflexivity.
  - unfold wf_world in *. cbn [nfiles closed alloc_file step].
    eapply Forall_impl; [|exact Hwf]. cbn. intros; lia.
  - exact Hfresh.
Qed.

(** X2. In a well-formed world, [NewInput] returns the pin number it was
    given and either an error, with no handle and no file left open, or
    direction Input and a handle on the value file of the pin, opened
    read-only, which is the one file it leaves open. *)
Theorem NewInput_opens_value_file (n : uint) (w : World) :
  wf_world w ->
  let '(p, err, w') := NewInput n w in
  Pin_Number p = n /\ wf_world w' /\
  match err with
  | None =>
      Pin_direction p = inDirection /\
      exists fl,
        Pin_f p = Some fl /\
        fname fl = gpio_path n "value" /\ fflag fl = O_RDONLY /\
        is_closed fl w' = false /\
        open_fds w' = open_fds w ++ [fd fl]
  | Some _ => Pin_f p = None /\ open_fds w' = open_fds w
  end.
Proof.
  intros Hwf.
  destruct (NewInput_shape n w) as [(p & e & w1 & E & HN & HF & HB)|(w2 & HB & E)].
  - rewrite E. destruct HB as (HO & HW & _). auto.
  - cbn zeta in E. rewrite E. destruct HB as (HO & HW & _).
    destruct (open_fds_alloc w2
                (CallOpenFile (gpio_path n "value") O_RDONLY
                   (Some (mkFile (nfiles w2) (gpio_path n "value") O_RDONLY)))
                (HW Hwf)) as (A & B & C).
    cbn zeta in A, B, C.
    split; [reflexivity|]. split; [exact B|]. split; [reflexivity|].
    eexists. split; [reflexivity|]. cbn [fname fflag fd].
    split; [reflexivity|]. split; [reflexivity|]. split; [exact C|].
    rewrite A, HO. reflexivity.
Qed.

Lemma NewInput_opens_value_file_witness :
  let '(p, err, w') := NewInput 17%N settling in
  Pin_Number p = 17%N /\ wf_world w' /\
  match err with
  | None =>
      Pin_direction p = inDirection /\
      exists fl,
        Pin_f p = Some fl /\
        fname fl = gpio_path 17%N "value" /\ fflag fl = O_RDONLY /\
        is_closed fl w' = false /\
        open_fds w' = open_fds settling ++ [fd fl]
  | Some _ => Pin_f p = None /\ open_fds w' = open_fds settling
  end.
Proof.
  apply (NewInput_opens_value_file 17%N settling). constructor.
Defined.

(** X3. In a well-formed world, [NewOutput] returns the pin number it was
    given and either an error, with no handle and no file left open, or
    direction Output and a handle on the value file of the pin, opened for
    reading and writing, which is the one file it leaves open. *)
Theorem NewOutput_opens_value_file (n : uint) (initHigh : bool) (w : World) :
  wf_world w ->
  let '(p, err, w') := NewOutput n initHigh w in
  Pin_Number p = n /\ wf_world w' /\
  match err with
  | None =>
      Pin_direction p = outDirection /\
      exists fl,
        Pin_f p = Some fl /\
        fname fl = gpio_path n "value" /\ fflag fl = O_RDWR /\
        is_closed fl w' = false /\
        open_fds w' = open_fds w ++ [fd fl]
  | Some _ => Pin_f p = None /\ open_fds w' = open_fds w
  end.
Proof.
  intros Hwf.
  destruct (NewOutput_shape n initHigh w)
    as [(p & e & w1 & E & HN & HF & HB)|(w2 & HB & E)].
  - rewrite E. destruct HB as (HO & HW & _). auto.
  - cbn zeta in E. rewrite E. destruct HB as (HO & HW & _).
    destruct (open_fds_alloc w2
                (CallOpenFile (gpio_path n "value") O_RDWR
                   (Some (mkFile (nfiles w2) (gpio_path n "value") O_RDWR)))
                (HW Hwf)) as (A & B & C).
    cbn zeta in A, B, C.
    split; [reflexivity|]. split; [exact B|]. split; [reflexivity|].
    eexists. split; [reflexivity|]. cbn [fname fflag fd].
    split; [reflexivity|]. split; [reflexivity|]. split; [exact C|].
    rewrite A, HO. reflexivity.
Qed.

Lemma NewOutput_opens_value_file_witness :
  let '(p, err, w') := NewOutput 17%N true settling in
  Pin_Number p = 17%N /\ wf_world w' /\
  match err with
  | None =>
      Pin_direction p = outDirection /\
      exists fl,
        Pin_f p = Some fl /\
        fname fl = gpio_path 17%N "value" /\ fflag fl = O_RDWR /\
        is_closed fl w' = false /\
        open_fds w' = open_fds settling ++ [fd fl]
  | Some _ => Pin_f p = None /\ open_fds w' = open_fds settling
  end.
Proof.
  apply (NewOutput_opens_value_file 17%N true settling). constructor.
Defined.

Example NewOutput_open_files :
  open_fds (snd output17) = [2%nat] /\
  open_fds (snd (NewInput 17%N unprivileged)) = [] /\
  open_fds (snd (NewInput 17%N stuck)) = [].
Proof. vm_compute. repeat split; reflexivity. Qed.

Lemma Close_after_open (w2 : World) (p : Pin) (name : string) (flag : OpenFlag) :
  let file := mkFile (nfiles w2) name flag in
  Pin_f p = Some file ->
  open_fds (snd (Close p (alloc_file (step (CallOpenFile name flag (Some file)) 0 w2))))
  = open_fds w2.
Proof.
  cbn zeta. intros Hf. unfold Close, Close_body. rewrite Hf.
  cbn [bind ret Monad_IO].
  pose proof (open_close_no_leak w2 _ name flag (same_files_refl _)) as L.
  cbn zeta in L.
  destruct (File_Close _ _) as [e w3]. exact L.
Qed.

Lemma Cleanup_open_fds (p : Pin) (w : World) :
  open_fds (snd (Cleanup p w)) = open_fds (snd (Close p w)).
Proof.
  unfold Cleanup. cbn [bind ret Monad_IO].
  destruct (Close p w) as [[] wc]. cbn [snd].
  apply unexportGPIO_balanced.
Qed.

(** X4. A pin that is constructed and then closed, or cleaned up, leaves
    the open files as they were before the construction, whether the
    construction succeeded or not. *)
Theorem construct_then_release_no_leak (n : uint) (initHigh : bool)
        (w : World) :
  (let '(p, _, w1) := NewInput n w in
   open_fds (snd (Close p w1)) = open_fds w /\
   open_fds (snd (Cleanup p w1)) = open_fds w) /\
  (let '(p, _, w1) := NewOutput n initHigh w in
   open_fds (snd (Close p w1)) = open_fds w /\
   open_fds (snd (Cleanup p w1)) = open_fds w).
Proof.
  split.
  - destruct (NewInput_shape n w)
      as [(p & e & w1 & E & HN & HF & HB)|(w2 & HB & E)].
    + rewrite E. rewrite Cleanup_open_fds.
      assert (HC : Close p w1 = (tt, w1))
        by (unfold Close, Close_body; rewrite HF; reflexivity).
      rewrite HC. cbn [snd]. split; apply HB.
    + cbn zeta in E. rewrite E. rewrite Cleanup_open_fds.
      rewrite Close_after_open by reflexivity. split; apply HB.
  - destruct (NewOutput_shape n initHigh w)
      as [(p & e & w1 & E & HN & HF & HB)|(w2 & HB & E)].
    + rewrite E. rewrite Cleanup_open_fds.
      assert (HC : Close p w1 = (tt, w1))
        by (unfold Close, Close_body; rewrite HF; reflexivity).
      rewrite HC. cbn [snd]. split; apply HB.
    + cbn zeta in E. rewrite E. rewrite Cleanup_open_fds.
      rewrite Close_after_open by reflexivity. split; apply HB.
Qed.

(** *** The calls of a successful construction *)

Lemma exportGPIO_nil (p : Pin) (w w' : World) :
  exportGPIO p w = (None, w') ->
  let file := Some (mkFile (nfiles w) export_path O_WRONLY) in
  exists k : nat,
    trace w' = trace w
                 ++ [CallOpenFile export_path O_WRONLY file;
                     CallWrite file (Itoa (int_of_uint (Pin_Number p)))]
                 ++ polls (direction_path p) k
                 ++ [CallAccess (direction_path p) true; CallClose file] /\
    nfiles w' = S (nfiles w).
Proof.
  cbn zeta. unfold exportGPIO. cbn [bind ret Monad_IO]. unfold os_OpenFile.
  destruct (k_open (kernel w) (now w) (trace w) export_path O_WRONLY) as [e|];
    [discriminate|].
  set (file := mkFile (nfiles w) export_path O_WRONLY).
  set (w1 := alloc_file (step (CallOpenFile export_path O_WRONLY (Some file)) 0 w)).
  pose proof (File_Write_trace (Some file) (Itoa (int_of_uint (Pin_Number p))) w1) as T1.
  pose proof (File_Write_files (Some file) (Itoa (int_of_uint (Pin_Number p))) w1) as [N1 _].
  destruct (File_Write (Some file) (Itoa (int_of_uint (Pin_Number p))) w1) as [e1 w2].
  cbn [snd] in T1, N1.
  destruct (waitUntilWritable_cases p w2)
    as (k & r & w3 & Ewait & _ & _ & N3 & Hcases).
  rewrite Ewait.
  pose proof (File_Close_trace (Some file) w3) as T4.
  pose proof (File_Close_files file w3) as [N4 _]. cbn zeta in N4.
  destruct (File_Close (Some file) w3) as [e4 w4]. cbn [snd] in T4, N4.
  intros E. inversion E. subst r w4. clear E.
  destruct Hcases as [[_ T3]|[Hr _]]; [|discriminate].
  exists k. split.
  - rewrite T4, T3, T1. subst w1. cbn [trace alloc_file step].
    rewrite <- !app_assoc. reflexivity.
  - rewrite N4, N3, N1. reflexivity.
Qed.

Lemma setDirection_nil (p : Pin) (d : direction) (v : uint) (w w' : World) :
  setDirection p d v w = (None, w') ->
  let file := Some (mkFile (nfiles w) (direction_path p) O_WRONLY) in
  exists token,
    spec_direction_token d v = Some token /\
    trace w' = trace w ++ [CallOpenFile (direction_path p) O_WRONLY file;
                           CallWrite file token; CallClose file] /\
    nfiles w' = S (nfiles w).
Proof.
  cbn zeta. unfold setDirection. cbn [bind ret Monad_IO]. unfold os_OpenFile.
  fold (direction_path p).
  destruct (k_open (kernel w) (now w) (trace w) (direction_path p) O_WRONLY)
    as [e|]; [discriminate|].
  set (file := Some (mkFile (nfiles w) (direction_path p) O_WRONLY)).
  set (w1 := alloc_file (step (CallOpenFile (direction_path p) O_WRONLY file) 0 w)).
  assert (Hwrite : forall token,
    (let (err, w2) := File_Write file token w1 in
     let (_, w3) := File_Close file w2 in (err, w3)) = (None, w') ->
    trace w' = trace w ++ [CallOpenFile (direction_path p) O_WRONLY file;
                           CallWrite file token; CallClose file] /\
    nfiles w' = S (nfiles w)).
  { intros token.
    pose proof (File_Write_trace file token w1) as TW.
    pose proof (File_Write_files file token w1) as [NW _].
    destruct (File_Write file token w1) as [err w2].
    pose proof (File_Close_trace file w2) as TC.
    pose proof (File_Close_files (mkFile (nfiles w) (direction_path p) O_WRONLY) w2)
      as [NC _].
    cbn zeta in NC. fold file in NC.
    destruct (File_Close file w2) as [ec w3].
    cbn [snd fst] in *. intros E. inversion E. subst err w3. split.
    - rewrite TC, TW. subst w1. cbn [trace alloc_file step].
      rewrite <- !app_assoc. reflexivity.
    - rewrite NC, NW. reflexivity. }
  assert (Hnone :
    (let (err, w2) := (Some (InvalidConfiguration d v), w1) in
     let (_, w3) := File_Close file w2 in (err, w3)) = (None, w') -> False).
  { destruct (File_Close file w1) as [ec w3]. discriminate. }
  destruct d as [|[dp|dp|]]; cbn -[File_Write File_Close];
    try (intros E; exfalso; exact (Hnone E)).
  - intros E. exists "in". split; [reflexivity | exact (Hwrite _ E)].
  - destruct v as [|[vp|vp|]]; cbn -[File_Write File_Close];
      try (intros E; exfalso; exact (Hnone E)).
    + intros E. exists "low". split; [reflexivity | exact (Hwrite _ E)].
    + intros E. exists "high". split; [reflexivity | exact (Hwrite _ E)].
Qed.

(** X5. When [NewInput] succeeds, the calls it made are, in this order:
    the open of [export], the write of the pin number, the probes of the
    direction file up to the first that finds it writable, the close of
    [export]; the open of the direction file, the write of [in], its
    close; the open of the value file, read-only.  The [Pin] holds that
    last file. *)
Theorem NewInput_success_calls (n : uint) (w w' : World) (p : Pin) :
  NewInput n w = (p, None, w') ->
  let dirname := gpio_path n "direction" in
  let export := Some (mkFile (nfiles w) export_path O_WRONLY) in
  let dir := Some (mkFile (S (nfiles w)) dirname O_WRONLY) in
  let value := Some (mkFile (S (S (nfiles w))) (gpio_path n "value") O_RDONLY) in
  p = mkPin n inDirection value /\
  exists k : nat,
    trace w' = trace w
      ++ [CallOpenFile export_path O_WRONLY export;
          CallWrite export (Itoa (int_of_uint n))]
      ++ polls dirname k
      ++ [CallAccess dirname true; CallClose export;
          CallOpenFile dirname O_WRONLY dir;
          CallWrite dir "in"; CallClose dir;
          CallOpenFile (gpio_path n "value") O_RDONLY value].
Proof.
  cbn zeta. unfold NewInput. cbn [bind ret Monad_IO].
  destruct (exportGPIO (mkPin n 0%N None) w) as [[e|] w1] eqn:E1;
    [discriminate|].
  destruct (exportGPIO_nil _ _ _ E1) as (k & T1 & N1). cbn zeta in T1.
  set (pin := set_direction inDirection (mkPin n 0%N None)).
  destruct (setDirection pin inDirection 0%N w1) as [[e|] w2] eqn:E2;
    [discriminate|].
  destruct (setDirection_nil _ _ _ _ _ E2) as (token & Htok & T2 & N2).
  cbn zeta in T2. cbn in Htok. inversion Htok. subst token.
  destruct (openPin_cases pin false w2) as [E3|E3]; rewrite E3;
    [discriminate|].
  intros E. inversion E. subst p w'. clear E.
  cbn [Pin_Number pin set_direction set_f Pin_direction].
  rewrite N2, N1. split; [reflexivity|].
  exists k. cbn [trace alloc_file step]. rewrite T2, T1, N1.
  unfold direction_path. cbn [Pin_Number pin set_direction].
  rewrite <- !app_assoc. reflexivity.
Qed.

Lemma NewInput_success_calls_witness :
  exists (p : Pin) (k : nat),
    trace (snd (NewInput 17%N settling)) =
      [CallOpenFile export_path O_WRONLY (Some (mkFile 0 export_path O_WRONLY));
       CallWrite (Some (mkFile 0 export_path O_WRONLY)) "17"]
      ++ polls (gpio_path 17%N "direction") k
      ++ [CallAccess (gpio_path 17%N "direction") true;
          CallClose (Some (mkFile 0 export_path O_WRONLY));
          CallOpenFile (gpio_path 17%N "direction") O_WRONLY
            (Some (mkFile 1 (gpio_path 17%N "direction") O_WRONLY));
          CallWrite (Some (mkFile 1 (gpio_path 17%N "direction") O_WRONLY)) "in";
          CallClose (Some (mkFile 1 (gpio_path 17%N "direction") O_WRONLY));
          CallOpenFile (gpio_path 17%N "value") O_RDONLY (Pin_f p)].
Proof.
  destruct (NewInput 17%N settling) as [[p err] w'] eqn:E.
  assert (Herr : err = None).
  { apply (f_equal (fun x => snd (fst x))) in E. vm_compute in E.
    symmetry. exact E. }
  subst err.
  destruct (NewInput_success_calls 17%N settling w' p E) as (Hp & k & T).
  exists p, k. cbn [snd]. rewrite T, Hp. reflexivity.
Defined.

(** X6. When [NewOutput] succeeds, the calls it made are those of
    [NewInput] with two differences: the token written to the direction
    file is [high] when [initHigh] is set and [low] otherwise, so that
    direction and initial level are set by one write, and the value file is
    opened for reading and writing. *)
Theorem NewOutput_success_calls (n : uint) (initHigh : bool) (w w' : World)
        (p : Pin) :
  NewOutput n initHigh w = (p, None, w') ->
  let dirname := gpio_path n "direction" in
  let export := Some (mkFile (nfiles w) export_path O_WRONLY) in
  let dir := Some (mkFile (S (nfiles w)) dirname O_WRONLY) in
  let value := Some (mkFile (S (S (nfiles w))) (gpio_path n "value") O_RDWR) in
  p = mkPin n outDirection value /\
  exists k : nat,
    trace w' = trace w
      ++ [CallOpenFile export_path O_WRONLY export;
          CallWrite export (Itoa (int_of_uint n))]
      ++ polls dirname k
      ++ [CallAccess dirname true; CallClose export;
          CallOpenFile dirname O_WRONLY dir;
          CallWrite dir (if initHigh then "high" else "low"); CallClose dir;
          CallOpenFile (gpio_path n "value") O_RDWR value].
Proof.
  cbn zeta. unfold NewOutput. cbn [bind ret Monad_IO].
  destruct (exportGPIO (mkPin n 0%N None) w) as [[e|] w1] eqn:E1;
    [discriminate|].
  destruct (exportGPIO_nil _ _ _ E1) as (k & T1 & N1). cbn zeta in T1.
  set (pin := set_direction outDirection (mkPin n 0%N None)).
  match goal with
  | |- context [setDirection pin outDirection ?v w1] =>
      destruct (setDirection pin outDirection v w1) as [[e|] w2] eqn:E2
  end; [discriminate|].
  destruct (setDirection_nil _ _ _ _ _ E2) as (token & Htok & T2 & N2).
  cbn zeta in T2.
  assert (Htoken : token = if initHigh then "high" else "low").
  { destruct initHigh; cbn in Htok; inversion Htok; reflexivity. }
  subst token.
  destruct (openPin_cases pin true w2) as [E3|E3]; rewrite E3;
    [discriminate|].
  intros E. inversion E. subst p w'. clear E.
  cbn [Pin_Number pin set_direction set_f Pin_direction].
  rewrite N2, N1. split; [reflexivity|].
  exists k. cbn [trace alloc_file step]. rewrite T2, T1, N1.
  unfold direction_path. cbn [Pin_Number pin set_direction].
  rewrite <- !app_assoc. reflexivity.
Qed.

Lemma NewOutput_success_calls_witness :
  exists k : nat,
    trace (snd output17) =
      [CallOpenFile export_path O_WRONLY (Some (mkFile 0 export_path O_WRONLY));
       CallWrite (Some (mkFile 0 export_path O_WRONLY)) "17"]
      ++ polls (gpio_path 17%N "direction") k
      ++ [CallAccess (gpio_path 17%N "direction") true;
          CallClose (Some (mkFile 0 export_path O_WRONLY));
          CallOpenFile (gpio_path 17%N "direction") O_WRONLY
            (Some (mkFile 1 (gpio_path 17%N "direction") O_WRONLY));
          CallWrite (Some (mkFile 1 (gpio_path 17%N "direction") O_WRONLY)) "high";
          CallClose (Some (mkFile 1 (gpio_path 17%N "direction") O_WRONLY));
          CallOpenFile (gpio_path 17%N "value") O_RDWR (Some value17)].
Proof.
  unfold output17.
  destruct (NewOutput 17%N true settling) as [[p err] w'] eqn:E.
  assert (Herr : err = None).
  { apply (f_equal (fun x => snd (fst x))) in E. vm_compute in E.
    symmetry. exact E. }
  subst err.
  destruct (NewOutput_success_calls 17%N true settling w' p E) as (Hp & k & T).
  exists k. cbn [snd]. rewrite T. reflexivity.
Defined.

(** *** Unexport and the attribute setters *)

(** X7. [unexportGPIO] fails only when the unexport file cannot be
    opened, and then does nothing else.  When the file opens, the decimal
    pin number is written to it, the file is closed and the result is
    [nil], whatever the kernel answers to the write. *)
Theorem unexportGPIO_outcome (p : Pin) (w : World) :
  match k_open (kernel w) (now w) (trace w) unexport_path O_WRONLY with
  | Some _ =>
      unexportGPIO p w =
      (Some UnexportFailure, step (CallOpenFile unexport_path O_WRONLY None) 0 w)
  | None =>
      let file := Some (mkFile (nfiles w) unexport_path O_WRONLY) in
      exists w',
        unexportGPIO p w = (None, w') /\
        trace w' = trace w
                     ++ [CallOpenFile unexport_path O_WRONLY file;
                         CallWrite file (Itoa (int_of_uint (Pin_Number p)));
                         CallClose file]
  end.
Proof.
  unfold unexportGPIO. cbn [bind ret Monad_IO]. unfold os_OpenFile.
  destruct (k_open (kernel w) (now w) (trace w) unexport_path O_WRONLY)
    as [e|]; [reflexivity|].
  cbn zeta.
  set (file := mkFile (nfiles w) unexport_path O_WRONLY).
  set (w1 := alloc_file (step (CallOpenFile unexport_path O_WRONLY (Some file)) 0 w)).
  pose proof (File_Write_trace (Some file) (Itoa (int_of_uint (Pin_Number p))) w1) as TW.
  destruct (File_Write (Some file) (Itoa (int_of_uint (Pin_Number p))) w1)
    as [ew w2].
  pose proof (File_Close_trace (Some file) w2) as TC.
  destruct (File_Close (Some file) w2) as [ec w3].
  cbn [snd] in TW, TC. exists w3. split; [reflexivity|].
  rewrite TC, TW. subst w1. cbn [trace alloc_file step].
  rewrite <- !app_assoc. reflexivity.
Qed.

Example unexportGPIO_never_exported :
  fst (unexportGPIO pin17 settling) = None /\
  fst (unexportGPIO pin17 unprivileged) = Some UnexportFailure.
Proof. vm_compute. split; reflexivity. Qed.

(** The body of a setter once its file is open: one token is written, or
    none and [err] is the result; the file is closed after either. *)
Lemma setter_write (w : World) (name token : string) (w' : World) r :
  let file := Some (mkFile (nfiles w) name O_WRONLY) in
  let opened := CallOpenFile name O_WRONLY file in
  (let (err, w2) := File_Write file token (alloc_file (step opened 0 w)) in
   let (_, w3) := File_Close file w2 in (err, w3)) = (r, w') ->
  trace w' = trace w ++ [opened; CallWrite file token; CallClose file] /\
  r = fst (File_Write file token (alloc_file (step opened 0 w))).
Proof.
  cbn zeta.
  set (file := Some (mkFile (nfiles w) name O_WRONLY)).
  set (w1 := alloc_file (step (CallOpenFile name O_WRONLY file) 0 w)).
  pose proof (File_Write_trace file token w1) as TW.
  destruct (File_Write file token w1) as [err w2].
  pose proof (File_Close_trace file w2) as TC.
  destruct (File_Close file w2) as [ec w3].
  cbn [snd fst] in *. intros E. inversion E. subst err w3.
  split; [|reflexivity].
  rewrite TC, TW. subst w1. cbn [trace alloc_file step].
  rewrite <- !app_assoc. reflexivity.
Qed.

Lemma setter_invalid (w : World) (name : string) (err : option error)
      (w' : World) r :
  let file := Some (mkFile (nfiles w) name O_WRONLY) in
  let opened := CallOpenFile name O_WRONLY file in
  (let (_, w3) := File_Close file (alloc_file (step opened 0 w)) in (err, w3))
  = (r, w') ->
  trace w' = trace w ++ [opened; CallClose file] /\ r = err.
Proof.
  cbn zeta.
  set (file := Some (mkFile (nfiles w) name O_WRONLY)).
  set (w1 := alloc_file (step (CallOpenFile name O_WRONLY file) 0 w)).
  pose proof (File_Close_trace file w1) as TC.
  destruct (File_Close file w1) as [ec w3].
  cbn [snd] in TC. intros E. inversion E. subst r w3.
  split; [|reflexivity].
  rewrite TC. subst w1. cbn [trace alloc_file step].
  rewrite <- !app_assoc. reflexivity.
Qed.

(** X8. When the edge file opens, [setEdgeTrigger] writes to it one
    token, [none], [rising], [falling] or [both] for the edges 0 to 3, and
    returns the result of that write; for any other edge it writes nothing
    and returns an error that carries the edge.  The file is closed in
    both cases. *)
Theorem setEdgeTrigger_token (p : Pin) (e : Edge) (w : World) :
  let name := gpio_path (Pin_Number p) "edge" in
  k_open (kernel w) (now w) (trace w) name O_WRONLY = None ->
  let file := Some (mkFile (nfiles w) name O_WRONLY) in
  let opened := CallOpenFile name O_WRONLY file in
  exists r w',
    setEdgeTrigger p e w = (r, w') /\
    match (match e with
           | 0 => Some "none" | 1 => Some "rising"
           | 2 => Some "falling" | 3 => Some "both"
           | _ => None
           end)%N with
    | Some token =>
        trace w' = trace w ++ [opened; CallWrite file token; CallClose file] /\
        r = fst (File_Write file token (alloc_file (step opened 0 w)))
    | None =>
        trace w' = trace w ++ [opened; CallClose file] /\
        r = Some (Errorf "setEdgeTrigger called with invalid edge %d" [ArgUint e])
    end.
Proof.
  cbn zeta. intros Hopen.
  unfold setEdgeTrigger. cbn [bind ret Monad_IO]. unfold os_OpenFile.
  rewrite Hopen.
  match goal with
  | |- exists r w', ?c = (r, w') /\ _ => destruct c as [r w'] eqn:E
  end.
  exists r, w'. split; [reflexivity|].
  destruct e as [|[[ep|ep|]|[ep|ep|]|]]; cbn -[File_Write File_Close] in E |- *;
    first [ apply (setter_write _ _ _ _ _ E)
          | apply (setter_invalid _ _ _ _ _ E) ].
Qed.

Lemma setEdgeTrigger_token_witness :
  exists r w',
    setEdgeTrigger pin17 EdgeFalling exported17 = (r, w') /\
    trace w' = trace exported17
      ++ [CallOpenFile (gpio_path 17%N "edge") O_WRONLY
            (Some (mkFile 1 (gpio_path 17%N "edge") O_WRONLY));
          CallWrite (Some (mkFile 1 (gpio_path 17%N "edge") O_WRONLY)) "falling";
          CallClose (Some (mkFile 1 (gpio_path 17%N "edge") O_WRONLY))].
Proof.
  assert (H : k_open (kernel exported17) (now exported17) (trace exported17)
                     (gpio_path (Pin_Number pin17) "edge") O_WRONLY = None)
    by (vm_compute; reflexivity).
  destruct (setEdgeTrigger_token pin17 EdgeFalling exported17 H)
    as (r & w' & E & T & _).
  exists r, w'. split; [exact E | exact T].
Defined.

(** X9. When the polarity file opens, [setLogicLevel] writes [0] to it
    for [ActiveHigh] and [1] for [ActiveLow], and returns the result of
    that write; for any other level it writes nothing and returns the
    invalid-level error.  The file is closed in both cases. *)
Theorem setLogicLevel_token (p : Pin) (l : LogicLevel) (w : World) :
  let name := gpio_path (Pin_Number p) "active_low" in
  k_open (kernel w) (now w) (trace w) name O_WRONLY = None ->
  let file := Some (mkFile (nfiles w) name O_WRONLY) in
  let opened := CallOpenFile name O_WRONLY file in
  exists r w',
    setLogicLevel p l w = (r, w') /\
    match (match l with 0 => Some "0" | 1 => Some "1" | _ => None end)%N with
    | Some token =>
        trace w' = trace w ++ [opened; CallWrite file token; CallClose file] /\
        r = fst (File_Write file token (alloc_file (step opened 0 w)))
    | None =>
        trace w' = trace w ++ [opened; CallClose file] /\
        r = Some (errors_New "invalid logic level setting")
    end.
Proof.
  cbn zeta. intros Hopen.
  unfold setLogicLevel. cbn [bind ret Monad_IO]. unfold os_OpenFile.
  rewrite Hopen.
  match goal with
  | |- exists r w', ?c = (r, w') /\ _ => destruct c as [r w'] eqn:E
  end.
  exists r, w'. split; [reflexivity|].
  destruct l as [|[lp|lp|]]; cbn -[File_Write File_Close] in E |- *;
    first [ apply (setter_write _ _ _ _ _ E)
          | apply (setter_invalid _ _ _ _ _ E) ].
Qed.

Lemma setLogicLevel_token_witness :
  exists r w',
    SetLogicLevel pin17 ActiveLow exported17 = (r, w') /\
    trace w' = trace exported17
      ++ [CallOpenFile (gpio_path 17%N "active_low") O_WRONLY
            (Some (mkFile 1 (gpio_path 17%N "active_low") O_WRONLY));
          CallWrite (Some (mkFile 1 (gpio_path 17%N "active_low") O_WRONLY)) "1";
          CallClose (Some (mkFile 1 (gpio_path 17%N "active_low") O_WRONLY))].
Proof.
  assert (H : k_open (kernel exported17) (now exported17) (trace exported17)
                     (gpio_path (Pin_Number pin17) "active_low") O_WRONLY = None)
    by (vm_compute; reflexivity).
  destruct (setLogicLevel_token pin17 ActiveLow exported17 H)
    as (r & w' & E & T & _).
  exists r, w'. split; [exact E | exact T].
Defined.

(** X10. When the file of the attribute cannot be opened, a setter makes
    no other call, and what was asked is not examined: [setDirection] and
    [setEdgeTrigger] return an error that carries the pin number and the
    error of the open, even for a direction, value or edge they would
    refuse, and [setLogicLevel] returns the error of the open itself. *)
Theorem setter_open_failure (p : Pin) (d : direction) (v : uint) (e : Edge)
        (l : LogicLevel) (w : World) (errno : Errno) :
  let failed name :=
    k_open (kernel w) (now w) (trace w) name O_WRONLY = Some errno in
  let cause name := PathError "open" name (SyscallErrno errno) in
  let after name := step (CallOpenFile name O_WRONLY None) 0 w in
  (failed (gpio_path (Pin_Number p) "direction") ->
   setDirection p d v w =
   (Some (Errorf "failed to open gpio %d direction file for writing: %v"
                 [ArgUint (Pin_Number p);
                  ArgError (cause (gpio_path (Pin_Number p) "direction"))]),
    after (gpio_path (Pin_Number p) "direction"))) /\
  (failed (gpio_path (Pin_Number p) "edge") ->
   setEdgeTrigger p e w =
   (Some (Errorf "failed to open gpio %d edge file for writing: %v"
                 [ArgUint (Pin_Number p);
                  ArgError (cause (gpio_path (Pin_Number p) "edge"))]),
    after (gpio_path (Pin_Number p) "edge"))) /\
  (failed (gpio_path (Pin_Number p) "active_low") ->
   setLogicLevel p l w =
   (Some (cause (gpio_path (Pin_Number p) "active_low")),
    after (gpio_path (Pin_Number p) "active_low"))).
Proof.
  cbn zeta. repeat split; intros H.
  - unfold setDirection. cbn [bind ret Monad_IO]. unfold os_OpenFile.
    rewrite H. reflexivity.
  - unfold setEdgeTrigger. cbn [bind ret Monad_IO]. unfold os_OpenFile.
    rewrite H. reflexivity.
  - unfold setLogicLevel. cbn [bind ret Monad_IO]. unfold os_OpenFile.
    rewrite H. reflexivity.
Qed.

Lemma setter_open_failure_witness :
  fst (setDirection pin17 7%N 7%N settling) =
  Some (Errorf "failed to open gpio %d direction file for writing: %v"
          [ArgUint 17%N;
           ArgError (PathError "open" (gpio_path 17%N "direction")
                               (SyscallErrno ENOENT))]) /\
  fst (setEdgeTrigger pin17 7%N settling) =
  Some (Errorf "failed to open gpio %d edge file for writing: %v"
          [ArgUint 17%N;
           ArgError (PathError "open" (gpio_path 17%N "edge")
                               (SyscallErrno ENOENT))]) /\
  fst (setLogicLevel pin17 7%N settling) =
  Some (PathError "open" (gpio_path 17%N "active_low") (SyscallErrno ENOENT)).
Proof.
  destruct (setter_open_failure pin17 7%N 7%N 7%N 7%N settling ENOENT)
    as (H1 & H2 & H3).
  rewrite H1, H2, H3 by (vm_compute; reflexivity).
  repeat split; reflexivity.
Defined.

(** *** The errors of the constructors *)

Lemma File_Write_error (fl : File) (b : string) (w : World) :
  fst (File_Write (Some fl) b w) = None \/
  exists cause, fst (File_Write (Some fl) b w) =
                Some (PathError "write" (fname fl) cause).
Proof.
  unfold File_Write. destruct (is_closed fl w); cbn [fst].
  - right. eexists. reflexivity.
  - destruct (k_write _ _ _ _ _); cbn; [right; eexists; reflexivity | left; reflexivity].
Qed.

Lemma exportGPIO_errors (p : Pin) (w : World) :
  fst (exportGPIO p w) = None \/
  fst (exportGPIO p w) = Some ExportFailure \/
  fst (exportGPIO p w) = Some (export_timeout_error p).
Proof.
  unfold exportGPIO. cbn [bind ret Monad_IO]. unfold os_OpenFile.
  destruct (k_open _ _ _ _ _) as [e|]; [right; left; reflexivity|].
  destruct (File_Write _ _ _) as [e1 w2].
  destruct (waitUntilWritable_cases p w2) as (k & r & w3 & E & _ & _ & _ & H).
  rewrite E. destruct (File_Close _ w3) as [e3 w4]. cbn [fst].
  destruct H as [[-> _]|[-> _]]; auto.
Qed.

Lemma setDirection_errors (p : Pin) (d : direction) (v : uint) (w : World) :
  spec_direction_token d v <> None ->
  fst (setDirection p d v w) = None \/
  (exists e, fst (setDirection p d v w) =
             Some (Errorf "failed to open gpio %d direction file for writing: %v"
                          [ArgUint (Pin_Number p); ArgError e])) \/
  (exists cause, fst (setDirection p d v w) =
                 Some (PathError "write" (direction_path p) cause)).
Proof.
  intros Hvalid.
  unfold setDirection. cbn [bind ret Monad_IO]. unfold os_OpenFile.
  fold (direction_path p).
  destruct (k_open _ _ _ _ _) as [e|].
  { right; left. eexists. reflexivity. }
  set (file := mkFile (nfiles w) (direction_path p) O_WRONLY).
  set (w1 := alloc_file _).
  assert (Hwrite : forall token,
    let r := fst (let (err, w2) := File_Write (Some file) token w1 in
                  let (_, w3) := File_Close (Some file) w2 in (err, w3)) in
    r = None \/
    (exists e, r = Some (Errorf "failed to open gpio %d direction file for writing: %v"
                                [ArgUint (Pin_Number p); ArgError e])) \/
    (exists cause, r = Some (PathError "write" (direction_path p) cause))).
  { intros token. cbn zeta.
    pose proof (File_Write_error file token w1) as HW.
    destruct (File_Write (Some file) token w1) as [err w2].
    destruct (File_Close (Some file) w2) as [ec w3]. cbn [fst] in *.
    destruct HW as [->|[cause ->]]; [left; reflexivity|].
    right; right. exists cause. reflexivity. }
  destruct d as [|[dp|dp|]]; cbn -[File_Write File_Close] in Hvalid |- *;
    try congruence; try apply Hwrite.
  destruct v as [|[vp|vp|]]; cbn -[File_Write File_Close] in Hvalid |- *;
    try congruence; apply Hwrite.
Qed.

Lemma construction_error_valid (n : uint) (err : option error)
      (d : direction) (v : uint) :
  construction_error n err -> err <> Some (InvalidConfiguration d v).
Proof.
  unfold construction_error, ExportFailure, export_timeout_error,
    InvalidConfiguration.
  intros [H|[H|[H|[[e H]|[[c H]|H]]]]]; rewrite H; discriminate.
Qed.

(** X11. The error of a constructor is [nil], the export failure, the
    export timeout, the failure to open the direction file, the failure of
    the write to it, or the failure to open the value file, reported as
    [for reading] by [NewOutput] too.  It is never the invalid
    configuration error: the constructors ask [setDirection] for a
    combination it accepts. *)
Theorem constructor_errors (n : uint) (initHigh : bool) (w : World)
        (d : direction) (v : uint) :
  let e1 := snd (fst (NewInput n w)) in
  let e2 := snd (fst (NewOutput n initHigh w)) in
  construction_error n e1 /\ construction_error n e2 /\
  e1 <> Some (InvalidConfiguration d v) /\
  e2 <> Some (InvalidConfiguration d v).
Proof.
  cbn zeta.
  assert (H1 : construction_error n (snd (fst (NewInput n w)))).
  { unfold NewInput. cbn [bind ret Monad_IO].
    pose proof (exportGPIO_errors (mkPin n 0%N None) w) as HE.
    destruct (exportGPIO (mkPin n 0%N None) w) as [[e|] w1]; cbn [fst snd] in *.
    { unfold construction_error. destruct HE as [HE|[HE|HE]];
        [discriminate | auto | auto]. }
    set (pin := set_direction inDirection (mkPin n 0%N None)).
    assert (HV : spec_direction_token inDirection 0%N <> None) by discriminate.
    pose proof (setDirection_errors pin inDirection 0%N w1 HV) as HD.
    destruct (setDirection pin inDirection 0%N w1) as [[e|] w2];
      cbn [fst snd] in *.
    { unfold construction_error.
      destruct HD as [HD|[[e' HD]|[c HD]]]; [discriminate| |].
      - right; right; right; left. exists e'. exact HD.
      - right; right; right; right; left. exists c. exact HD. }
    destruct (openPin_cases pin false w2) as [E|E]; rewrite E; cbn [fst snd].
    - do 5 right. reflexivity.
    - left. reflexivity. }
  assert (H2 : construction_error n (snd (fst (NewOutput n initHigh w)))).
  { unfold NewOutput. cbn [bind ret Monad_IO].
    pose proof (exportGPIO_errors (mkPin n 0%N None) w) as HE.
    destruct (exportGPIO (mkPin n 0%N None) w) as [[e|] w1]; cbn [fst snd] in *.
    { unfold construction_error. destruct HE as [HE|[HE|HE]];
        [discriminate | auto | auto]. }
    set (pin := set_direction outDirection (mkPin n 0%N None)).
    match goal with
    | |- context [setDirection pin outDirection ?iv w1] =>
        assert (HV : spec_direction_token outDirection iv <> None)
          by (destruct initHigh; discriminate);
        pose proof (setDirection_errors pin outDirection iv w1 HV) as HD;
        destruct (setDirection pin outDirection iv w1) as [[e|] w2]
    end; cbn [fst snd] in *.
    { unfold construction_error.
      destruct HD as [HD|[[e' HD]|[c HD]]]; [discriminate| |].
      - right; right; right; left. exists e'. exact HD.
      - right; right; right; right; left. exists c. exact HD. }
    destruct (openPin_cases pin true w2) as [E|E]; rewrite E; cbn [fst snd].
    - do 5 right. reflexivity.
    - left. reflexivity. }
  split; [exact H1|]. split; [exact H2|].
  split; apply (construction_error_valid n); assumption.
Qed.

Example NewOutput_unprivileged :
  snd (fst (NewOutput 17%N true unprivileged)) = Some ExportFailure /\
  snd (fst (NewOutput 17%N true stuck)) = Some (export_timeout_error pin17).
Proof. vm_compute. split; reflexivity. Qed.

(** *** The pin number as it is written and as it is named *)

(** X12. For a pin number below 2^63 the decimal number written to the
    export and unexport files is the one that names the directory of the
    pin. *)
Theorem Itoa_int_of_uint_small (n : uint) :
  (n < 2 ^ 63)%N ->
  Itoa (int_of_uint n) = sprint_uint n /\
  gpio_path n "direction" =
  ("/sys/class/gpio/gpio" ++ Itoa (int_of_uint n) ++ "/direction")%string.
Proof.
  intros Hn.
  assert (E : Itoa (int_of_uint n) = sprint_uint n).
  { unfold Itoa, int_of_uint, sprint_uint.
    assert (Hz : 0 <= Z.of_N n < 2 ^ 63) by lia.
    rewrite Z.mod_small by lia. cbn zeta.
    destruct (Z.ltb_spec (Z.of_N n) (2 ^ 63)) as [_|]; [|lia].
    destruct n as [|q]; reflexivity. }
  split; [exact E|]. unfold gpio_path. rewrite E. reflexivity.
Qed.

Lemma Itoa_int_of_uint_small_witness :
  Itoa (int_of_uint 17%N) = sprint_uint 17%N /\
  gpio_path 17%N "direction" =
  ("/sys/class/gpio/gpio" ++ Itoa (int_of_uint 17%N) ++ "/direction")%string.
Proof.
  apply (Itoa_int_of_uint_small 17%N). vm_compute. reflexivity.
Defined.

(** X13. For a pin number from 2^63 up, the conversion to [int] wraps:
    what is written to the export and unexport files is a minus sign and
    the distance to 2^64, not the number that names the directory of the
    pin. *)
Theorem Itoa_int_of_uint_wraps (n : uint) :
  (2 ^ 63 <= n < 2 ^ 64)%N ->
  Itoa (int_of_uint n) = String "-" (sprint_uint (2 ^ 64 - n)%N) /\
  Itoa (int_of_uint n) <> sprint_uint n.
Proof.
  intros Hn.
  assert (E : Itoa (int_of_uint n) = String "-" (sprint_uint (2 ^ 64 - n)%N)).
  { unfold Itoa, int_of_uint, sprint_uint.
    rewrite Z.mod_small by lia. cbn zeta.
    destruct (Z.ltb_spec (Z.of_N n) (2 ^ 63)) as [|_]; [lia|].
    replace (Z.of_N n - 2 ^ 64) with (- Z.of_N (2 ^ 64 - n)) by lia.
    destruct (2 ^ 64 - n)%N as [|q] eqn:Eq; [lia|]. reflexivity. }
  split; [exact E|]. rewrite E. unfold sprint_uint.
  destruct (N.to_uint n); cbn; discriminate.
Qed.

Lemma Itoa_int_of_uint_wraps_witness :
  Itoa (int_of_uint (2 ^ 64 - 1)%N) = "-1" /\
  sprint_uint (2 ^ 64 - 1)%N = "18446744073709551615".
Proof.
  assert (H : (2 ^ 63 <= 2 ^ 64 - 1 < 2 ^ 64)%N) by (vm_compute; split; [discriminate | reflexivity]).
  destruct (Itoa_int_of_uint_wraps (2 ^ 64 - 1)%N H) as [E _].
  split; [rewrite E|]; vm_compute; reflexivity.
Defined.

(** *** Value input and output *)

Lemma File_Seek_trace (file : option File) (o wh : Z) (w : World) :
  trace (snd (File_Seek file o wh w)) = trace w ++ [CallSeek file o wh].
Proof.
  unfold File_Seek. destruct file as [fl|]; [destruct (is_closed fl w)|];
    reflexivity.
Qed.

Lemma File_Read1_trace (file : option File) (w : World) :
  trace (snd (File_Read1 file w)) = trace w ++ [CallRead file 1].
Proof.
  unfold File_Read1. destruct file as [fl|];
    [destruct (is_closed fl w); [|destruct (k_read _ _ _ _)]|]; reflexivity.
Qed.

(** X14. Whatever the state of the handle and whatever is read, [Read]
    makes two calls, a seek to offset 0 and a read of one byte: it writes
    nothing and opens and closes no file.  On an Output pin [High] and
    [Low] make one call, the write of the byte ['1'] or ['0'], without a
    seek. *)
Theorem value_io_calls (p : Pin) (n : uint) (file : option File) (w : World) :
  let q := mkPin n outDirection file in
  (trace (snd (Read p w)) =
     trace w ++ [CallSeek (Pin_f p) 0 0; CallRead (Pin_f p) 1] /\
   same_files w (snd (Read p w))) /\
  (trace (snd (High q w)) = trace w ++ [CallWrite file "1"] /\
   same_files w (snd (High q w))) /\
  (trace (snd (Low q w)) = trace w ++ [CallWrite file "0"] /\
   same_files w (snd (Low q w))).
Proof.
  cbn zeta. split; [|split].
  - unfold Read, readPin. cbn [bind ret Monad_IO].
    pose proof (File_Seek_trace (Pin_f p) 0 0 w) as T1.
    pose proof (File_Seek_files (Pin_f p) 0 0 w) as F1.
    destruct (File_Seek (Pin_f p) 0 0 w) as [e1 w1]. cbn [snd] in T1, F1.
    pose proof (File_Read1_trace (Pin_f p) w1) as T2.
    pose proof (File_Read1_files (Pin_f p) w1) as F2.
    destruct (File_Read1 (Pin_f p) w1) as [[c e2] w2]. cbn [snd] in T2, F2.
    assert (Hgoal : trace w2 = trace w ++ [CallSeek (Pin_f p) 0 0; CallRead (Pin_f p) 1]
                    /\ same_files w w2).
    { split; [rewrite T2, T1, <- app_assoc; reflexivity|].
      exact (same_files_trans _ _ _ F1 F2). }
    destruct e2 as [e|]; [exact Hgoal|].
    destruct (Ascii.eqb c "0"); [exact Hgoal|].
    destruct (Ascii.eqb c "1"); exact Hgoal.
  - unfold High, writePin. cbn.
    split; [apply File_Write_trace | apply File_Write_files].
  - unfold Low, writePin. cbn.
    split; [apply File_Write_trace | apply File_Write_files].
Qed.

(** X15. After [Close], the handle that the caller's [Pin] still holds is
    that of a closed file: [Read] returns the closed-file error of the
    read with value 0, and [High] and [Low] return the closed-file error
    of the write. *)
Theorem io_after_Close (n : uint) (d : direction) (fl : File) (w : World) :
  let p := mkPin n d (Some fl) in
  let q := mkPin n outDirection (Some fl) in
  fst (Read p (snd (Close p w))) =
    (0%N, Some (PathError "read" (fname fl) ErrClosed)) /\
  fst (High q (snd (Close q w))) =
    Some (PathError "write" (fname fl) ErrClosed) /\
  fst (Low q (snd (Close q w))) =
    Some (PathError "write" (fname fl) ErrClosed).
Proof.
  cbn zeta.
  assert (HC : forall d', is_closed fl (snd (Close (mkPin n d' (Some fl)) w)) = true).
  { intros d'. unfold Close, Close_body. cbn [bind ret Monad_IO Pin_f].
    pose proof (File_Close_closes fl w) as C.
    destruct (File_Close (Some fl) w) as [e w1]. exact C. }
  split; [apply Read_closed_handle; apply HC|].
  split.
  - unfold High, writePin, File_Write. cbn [Pin_direction Pin_f negb N.eqb outDirection Pos.eqb].
    rewrite HC. reflexivity.
  - unfold Low, writePin, File_Write. cbn [Pin_direction Pin_f negb N.eqb outDirection Pos.eqb].
    rewrite HC. reflexivity.
Qed.

Example Read_after_Close_on_output_pin :
  let '(p, _, w) := output17 in
  fst (Read p w) = (1%N, None) /\
  fst (Read p (snd (Close p w))) =
  (0%N, Some (PathError "read" (gpio_path 17%N "value") ErrClosed)).
Proof. vm_compute. split; reflexivity. Qed.

(** *** Early failure and the time of a timeout *)

(** X16. A constructor that cannot open the export file makes no other
    call: it returns the export failure and a [Pin] with the number it was
    given, the zero direction and no handle, for [NewOutput] as for
    [NewInput]. *)
Theorem constructor_export_failure (n : uint) (initHigh : bool) (w : World)
        (errno : Errno) :
  k_open (kernel w) (now w) (trace w) export_path O_WRONLY = Some errno ->
  let w' := step (CallOpenFile export_path O_WRONLY None) 0 w in
  NewInput n w = (mkPin n inDirection None, Some ExportFailure, w') /\
  NewOutput n initHigh w = (mkPin n inDirection None, Some ExportFailure, w').
Proof.
  intros H. cbn zeta.
  assert (E : exportGPIO (mkPin n 0%N None) w =
              (Some ExportFailure, step (CallOpenFile export_path O_WRONLY None) 0 w)).
  { unfold exportGPIO. cbn [bind ret Monad_IO]. unfold os_OpenFile.
    rewrite H. reflexivity. }
  unfold NewInput, NewOutput. cbn [bind ret Monad_IO]. rewrite E.
  split; reflexivity.
Qed.

Lemma constructor_export_failure_witness :
  NewInput 17%N unprivileged =
    (mkPin 17%N inDirection None, Some ExportFailure,
     step (CallOpenFile export_path O_WRONLY None) 0 unprivileged) /\
  NewOutput 17%N true unprivileged =
    (mkPin 17%N inDirection None, Some ExportFailure,
     step (CallOpenFile export_path O_WRONLY None) 0 unprivileged).
Proof.
  apply (constructor_export_failure 17%N true unprivileged EACCES).
  vm_compute. reflexivity.
Defined.

Lemma waitUntilWritable_timeout_time (p : Pin) (w w' : World) :
  waitUntilWritable p w = (Some (export_timeout_error p), w') ->
  timeout <= now w' - now w.
Proof.
  destruct (time_Now_spec w) as (start & Hstart & Enow).
  set (w1 := mkWorld start (kernel w) (closed w) (nfiles w) (trace w)) in *.
  assert (Hroom : timeout - Z.of_nat 100 * (10 * Millisecond) <= now w1 - start)
    by (cbn; lia).
  assert (Hpf : poll_fuel = 101%nat) by reflexivity.
  destruct (waitLoop_spec poll_fuel start p w1 100 Hroom)
    as (k & r & w2 & Erun & _ & _ & _ & _ & Hcases & _); [lia|].
  unfold waitUntilWritable, waitUntilWritable_fuel.
  cbn [bind ret Monad_IO]. rewrite Enow. fold w1. rewrite Erun.
  intros E. inversion E. subst r w2.
  destruct Hcases as [[Hr _]|[_ [_ Ht]]]; [discriminate|]. lia.
Qed.

Lemma step_clock (c : Call) (w : World) : now w <= now (step c 0 w).
Proof. unfold step. cbn. lia. Qed.

Lemma File_Write_clock (file : option File) (b : string) (w : World) :
  now w <= now (snd (File_Write file b w)).
Proof.
  unfold File_Write. destruct file as [fl|]; [destruct (is_closed fl w)|];
    apply step_clock.
Qed.

Lemma File_Close_clock (file : option File) (w : World) :
  now w <= now (snd (File_Close file w)).
Proof.
  unfold File_Close. destruct file as [fl|]; [destruct (is_closed fl w)|];
    apply step_clock.
Qed.

(** X17. An export that ends with the timeout error has taken at least
    one second. *)
Theorem exportGPIO_timeout_duration (p : Pin) (w w' : World) :
  exportGPIO p w = (Some (export_timeout_error p), w') ->
  timeout <= now w' - now w.
Proof.
  unfold exportGPIO. cbn [bind ret Monad_IO]. unfold os_OpenFile.
  destruct (k_open (kernel w) (now w) (trace w) export_path O_WRONLY) as [e|].
  { intros E. inversion E. }
  set (file := mkFile (nfiles w) export_path O_WRONLY).
  set (w1 := alloc_file (step (CallOpenFile export_path O_WRONLY (Some file)) 0 w)).
  assert (H1 : now w <= now w1) by apply step_clock.
  pose proof (File_Write_clock (Some file) (Itoa (int_of_uint (Pin_Number p))) w1) as H2.
  destruct (File_Write (Some file) (Itoa (int_of_uint (Pin_Number p))) w1) as [e1 w2].
  cbn [snd] in H2.
  destruct (waitUntilWritable p w2) as [r w3] eqn:Ewait.
  pose proof (File_Close_clock (Some file) w3) as H4.
  destruct (File_Close (Some file) w3) as [e4 w4]. cbn [snd] in H4.
  intros E. inversion E. subst r w4.
  pose proof (waitUntilWritable_timeout_time p w2 w3 Ewait). lia.
Qed.

Lemma exportGPIO_timeout_duration_witness :
  timeout <= now (snd (exportGPIO pin17 stuck)) - now stuck.
Proof.
  apply (exportGPIO_timeout_duration pin17 stuck (snd (exportGPIO pin17 stuck))).
  vm_compute. reflexivity.
Defined.
